(** * buffered-csv: the buffered CSV writer of [lib/File.js]

    A shallow embedding of [lib/File.js] and the properties of its
    buffering, rendering and life cycle.

    Modelling choices, all read off the source:
    - JavaScript strings are [string]; a character stands for a code unit.
    - An object used as a map ([this.fields], a row given as an object) is
      a plain object: the association list of its own properties in
      insertion order, with [Object.prototype] behind it.  [Object.keys]
      lists the keys that are array indices first, in ascending order, and
      then the other keys in insertion order; a read [obj[name]] that finds
      no own property finds the member of [Object.prototype] of that name,
      when there is one.
    - The writer looks at a cell value only through [=== undefined],
      [=== null], its [toString] member and the conversion to text that
      [join] makes, so a value is [undefined], [null], a string, or anything
      else seen through the text its [toString()] returns and the text
      [join] gives it, either of which can be missing.
    - An exception leaves every assignment made before it in place, so an
      operation returns the final object, the effects it issued and either
      the exception or a value.
    - The file system, the timers and the listeners are outside: a call to
      them is an entry of the trace, also when the call throws, and what
      they answer comes from [Env].  Which arguments [fs.writeFile] and
      [fs.appendFile] refuse before they start writing is the validation
      Node makes of the encoding and of the path.  A listener, and a [path]
      given as a function, are taken to return. *)

From Stdlib Require Import String Ascii List ZArith Bool Lia Sorted.
Import ListNotations.
Open Scope string_scope.

(** ** Strings: [String.prototype.replace] with a string pattern *)

Fixpoint string_drop (n : nat) (s : string) : string :=
  match n, s with
  | O, _ => s
  | S n', String _ s' => string_drop n' s'
  | S _, EmptyString => EmptyString
  end.

(** [split_first pat s]: the text before and after the leftmost occurrence
    of [pat] in [s] ([indexOf]); the empty pattern occurs at position 0. *)
Fixpoint split_first (pat s : string) : option (string * string) :=
  if String.prefix pat s then Some (EmptyString, string_drop (String.length pat) s)
  else match s with
       | EmptyString => None
       | String c s' =>
           match split_first pat s' with
           | Some (before, after) => Some (String c before, after)
           | None => None
           end
       end.

(** GetSubstitution of ECMA-262 for a match without capture groups:
    [$$] is a dollar, [$&] the matched text, [$`] the text before the match
    and [$'] the text after it; any other character, a dollar included,
    stands for itself. *)
Fixpoint GetSubstitution (matched before after replacement : string) : string :=
  match replacement with
  | EmptyString => EmptyString
  | String "$" (String "$" r) => String "$" (GetSubstitution matched before after r)
  | String "$" (String "&" r) => matched ++ GetSubstitution matched before after r
  | String "$" (String "`" r) => before ++ GetSubstitution matched before after r
  | String "$" (String "'" r) => after ++ GetSubstitution matched before after r
  | String c r => String c (GetSubstitution matched before after r)
  end.

(** [s.replace(pat, replacement)] for a string [pat]: the leftmost occurrence
    only. *)
Definition String_replace (s pat replacement : string) : string :=
  match split_first pat s with
  | None => s
  | Some (before, after) =>
      before ++ GetSubstitution pat before after replacement ++ after
  end.

(** ** Values, rows and the object *)

(** [VOther str] is a value that [join] converts to text with its own
    [toString]: a number, a boolean, a function, an ordinary object.  [str]
    is that text; [None] is a value with neither a [toString] nor a
    conversion, as [Object.create(null)].  [VExotic member text] is a value
    for which the two differ: [member] is what its [toString()] returns
    ([None]: it has no such member) and [text] is what [join] makes of it
    ([None]: the conversion throws).  A Symbol has a [toString] and no
    conversion; an object with a [valueOf] and without [toString] has a
    conversion and no [toString]. *)
Inductive value : Type :=
| VUndefined
| VNull
| VString (s : string)
| VOther (str : option string)
| VExotic (member : option string) (text : option string).

(** The member [value.toString]: [None] is [undefined]. *)
Definition toString_member (v : value) : option string :=
  match v with
  | VString s => Some s
  | VOther str => str
  | VExotic member _ => member
  | VUndefined | VNull => None
  end.

(** What [add] can be called with.  [DArray items] is an array without
    holes; [DObject props] is a plain object, its own enumerable properties
    in the order they were added. *)
Inductive jsdata : Type :=
| DUndefined
| DNull
| DBoolean (b : bool)
| DNumber (z : Z)
| DString (s : string)
| DFunction
| DArray (items : list value)
| DObject (props : list (string * value)).

Inductive jstype : Type :=
| TyUndefined | TyObject | TyBoolean | TyNumber | TyString | TyFunction.

Definition typeof (d : jsdata) : jstype :=
  match d with
  | DUndefined => TyUndefined
  | DNull => TyObject
  | DBoolean _ => TyBoolean
  | DNumber _ => TyNumber
  | DString _ => TyString
  | DFunction => TyFunction
  | DArray _ => TyObject
  | DObject _ => TyObject
  end.

Definition jstype_eqb (a b : jstype) : bool :=
  match a, b with
  | TyUndefined, TyUndefined | TyObject, TyObject | TyBoolean, TyBoolean
  | TyNumber, TyNumber | TyString, TyString | TyFunction, TyFunction => true
  | _, _ => false
  end.

Record field : Type := { quoted : bool }.

(** The own property [name] of an object: the first entry of that key. *)
Fixpoint get {A : Type} (name : string) (obj : list (string * A)) : option A :=
  match obj with
  | [] => None
  | (k, v) :: rest => if String.eqb k name then Some v else get name rest
  end.

(** An array index is the decimal text, without sign or leading zero, of an
    integer below [2^32 - 1]. *)
Definition digit_of (c : ascii) : option N :=
  let n := N_of_ascii c in
  if (48 <=? n)%N && (n <=? 57)%N then Some (n - 48)%N else None.

Fixpoint parse_decimal (s : string) (acc : N) : option N :=
  match s with
  | EmptyString => Some acc
  | String c r =>
      match digit_of c with
      | Some d => parse_decimal r (10 * acc + d)%N
      | None => None
      end
  end.

Definition array_index (s : string) : option N :=
  match s with
  | EmptyString => None
  | String "0" EmptyString => Some 0%N
  | String "0" _ => None
  | _ =>
      match parse_decimal s 0 with
      | Some n => if (n <=? 4294967294)%N then Some n else None
      | None => None
      end
  end.

Definition is_array_index (s : string) : bool :=
  match array_index s with Some _ => true | None => false end.

Fixpoint insert_index (n : N) (k : string) (l : list (N * string))
  : list (N * string) :=
  match l with
  | [] => [(n, k)]
  | (m, k') :: rest =>
      if (n <=? m)%N then (n, k) :: l else (m, k') :: insert_index n k rest
  end.

(** The keys that are array indices, in ascending order. *)
Fixpoint index_keys (keys : list string) : list (N * string) :=
  match keys with
  | [] => []
  | k :: rest =>
      match array_index k with
      | Some n => insert_index n k (index_keys rest)
      | None => index_keys rest
      end
  end.

Definition index_le (a b : N * string) : Prop := (fst a <= fst b)%N.

(** [Object.keys(obj)]: the array indices in ascending order, then the other
    keys in the order they were added. *)
Definition Object_keys {A : Type} (obj : list (string * A)) : list string :=
  (map snd (index_keys (map fst obj))
   ++ filter (fun k => negb (is_array_index k)) (map fst obj))%list.

(** What a function of the language shows as its text. *)
Definition native_function (name : string) : value :=
  VOther (Some ("function " ++ name ++ "() { [native code] }")).

(** The members of [Object.prototype], which every plain object inherits:
    eleven functions, and [__proto__], which reads as [Object.prototype]
    itself. *)
Definition Object_prototype : list (string * value) :=
  [("constructor", native_function "Object");
   ("__defineGetter__", native_function "__defineGetter__");
   ("__defineSetter__", native_function "__defineSetter__");
   ("hasOwnProperty", native_function "hasOwnProperty");
   ("__lookupGetter__", native_function "__lookupGetter__");
   ("__lookupSetter__", native_function "__lookupSetter__");
   ("isPrototypeOf", native_function "isPrototypeOf");
   ("propertyIsEnumerable", native_function "propertyIsEnumerable");
   ("toString", native_function "toString");
   ("valueOf", native_function "valueOf");
   ("__proto__", VOther (Some "[object Object]"));
   ("toLocaleString", native_function "toLocaleString")].

Definition inherited (name : string) : option value :=
  get name Object_prototype.

(** [data[name]] of a row object: the own property, else the inherited
    member, else [undefined]. *)
Definition get_value (name : string) (data : list (string * value)) : value :=
  match get name data with
  | Some v => v
  | None =>
      match inherited name with
      | Some v => v
      | None => VUndefined
      end
  end.

(** [obj[name] !== undefined]: there is an own property or an inherited
    member of that name. *)
Definition is_defined {A : Type} (name : string) (obj : list (string * A))
  : bool :=
  match get name obj with
  | Some _ => true
  | None =>
      match inherited name with
      | Some _ => true
      | None => false
      end
  end.

(** The [path] option: a string, or a function called at every flush. *)
Inductive pathopt : Type :=
| PathString (s : string)
| PathFunction.

Inductive timer : Type :=
| TimerUndefined
| TimerHandle
| TimerNull.

(** The properties on [this]. *)
Record Public : Type := {
  encoding : string;
  delimeter : string;
  quote : string;
  escape : string;
  nullValue : string;
  eol : string;
  headers : bool;
  overwrite : bool;
  fields : list (string * field);
  flushInterval : Z;
  flushLines : Z;
  path : pathopt
}.

(** The properties on [_(this)]. *)
Record Private : Type := {
  lastPath : option string;
  buffer : list (list value);
  timerFlushInterval : timer;
  open : bool
}.

Record File : Type := { this : Public; priv : Private }.

Definition set_fields (fs : list (string * field)) (f : File) : File :=
  let p := this f in
  {| this := {| encoding := encoding p; delimeter := delimeter p;
                quote := quote p; escape := escape p;
                nullValue := nullValue p; eol := eol p;
                headers := headers p; overwrite := overwrite p;
                fields := fs;
                flushInterval := flushInterval p;
                flushLines := flushLines p; path := path p |};
     priv := priv f |}.

Definition set_lastPath (lp : option string) (f : File) : File :=
  let q := priv f in
  {| this := this f;
     priv := {| lastPath := lp; buffer := buffer q;
                timerFlushInterval := timerFlushInterval q; open := open q |} |}.

Definition set_buffer (b : list (list value)) (f : File) : File :=
  let q := priv f in
  {| this := this f;
     priv := {| lastPath := lastPath q; buffer := b;
                timerFlushInterval := timerFlushInterval q; open := open q |} |}.

Definition set_timerFlushInterval (t : timer) (f : File) : File :=
  let q := priv f in
  {| this := this f;
     priv := {| lastPath := lastPath q; buffer := buffer q;
                timerFlushInterval := t; open := open q |} |}.

Definition set_open (o : bool) (f : File) : File :=
  let q := priv f in
  {| this := this f;
     priv := {| lastPath := lastPath q; buffer := buffer q;
                timerFlushInterval := timerFlushInterval q; open := o |} |}.

(** ** Exceptions, effects and the monad of the operations *)

Inductive exn : Type :=
| missing_option_path
| file_not_open
| invalid_data
| not_a_string
| TypeError.

Inductive effect : Type :=
| SetInterval (ms : Z)
| ClearInterval (t : timer)
| Emit_data (path csv : string)
| Emit_error (err path csv : string)
| WriteFile (path csv encoding : string)
| AppendFile (path csv encoding : string).

Record Outcome (A : Type) : Type := {
  final : File;
  trace : list effect;
  result : exn + A
}.
Arguments final {A} _.
Arguments trace {A} _.
Arguments result {A} _.

Definition M (A : Type) : Type := File -> Outcome A.

Definition ret {A : Type} (a : A) : M A :=
  fun f => {| final := f; trace := []; result := inr a |}.

Definition throw {A : Type} (e : exn) : M A :=
  fun f => {| final := f; trace := []; result := inl e |}.

Definition bind {A B : Type} (m : M A) (k : A -> M B) : M B :=
  fun f =>
    let o := m f in
    match result o with
    | inl e => {| final := final o; trace := trace o; result := inl e |}
    | inr a =>
        let o' := k a (final o) in
        {| final := final o'; trace := trace o ++ trace o'; result := result o' |}
    end.

Definition read : M File :=
  fun f => {| final := f; trace := []; result := inr f |}.

Definition modify (g : File -> File) : M unit :=
  fun f => {| final := g f; trace := []; result := inr tt |}.

Definition perform (e : effect) : M unit :=
  fun f => {| final := f; trace := [e]; result := inr tt |}.

Definition lift {A : Type} (r : exn + A) : M A :=
  fun f => {| final := f; trace := []; result := r |}.

Declare Scope js_scope.
Delimit Scope js_scope with js.
Notation "x <- m ;; k" := (bind m (fun x => k))
  (at level 61, m at next level, right associativity) : js_scope.
Notation "m ;; k" := (bind m (fun _ => k))
  (at level 61, right associativity) : js_scope.
Open Scope js_scope.

(** The same sequencing for a computation that only reads the object. *)
Definition sum_bind {A B : Type} (r : exn + A) (k : A -> exn + B) : exn + B :=
  match r with
  | inl e => inl e
  | inr a => k a
  end.

(** [array.map(fn)] for a callback that can throw: left to right, stopping at
    the first exception; the callback gets the index too. *)
Fixpoint map_from {A B : Type} (fn : A -> nat -> exn + B) (index : nat)
  (l : list A) : exn + list B :=
  match l with
  | [] => inr []
  | x :: rest =>
      sum_bind (fn x index) (fun y =>
      sum_bind (map_from fn (S index) rest) (fun ys => inr (y :: ys)))
  end.

(** [array.join(sep)] on an array of strings. *)
Fixpoint join_strings (sep : string) (l : list string) : string :=
  match l with
  | [] => EmptyString
  | [s] => s
  | s :: rest => s ++ sep ++ join_strings sep rest
  end.

(** The text [array.join] gives an element: nothing for [undefined] and
    [null], ToString otherwise, which throws on a value that cannot be
    converted. *)
Definition join_element (v : value) : exn + string :=
  match v with
  | VUndefined | VNull => inr EmptyString
  | VString s => inr s
  | VOther (Some s) | VExotic _ (Some s) => inr s
  | VOther None | VExotic _ None => inl TypeError
  end.

Definition Array_join (sep : string) (l : list value) : exn + string :=
  sum_bind (map_from (fun v _ => join_element v) 0 l)
           (fun texts => inr (join_strings sep texts)).

(** ** The constructor *)

(** The defaults of [quote] and [escape]: the characters 34 and 92. *)
Definition double_quote : string :=
  Eval cbv in String (ascii_of_nat 34) EmptyString.
Definition backslash : string :=
  Eval cbv in String (ascii_of_nat 92) EmptyString.

(** The [options] argument, seen through the twelve keys [_getOptions] reads
    ([None]: the key is [undefined]); [opt_others] holds every other key.
    A key that is given holds a value of the kind the writer uses it as: a
    string, a boolean for what it tests, the object of the fields, an
    integer, and for [path] a string or a function. *)
Record Options : Type := {
  opt_encoding : option string;
  opt_delimeter : option string;
  opt_quote : option string;
  opt_escape : option string;
  opt_nullValue : option string;
  opt_eol : option string;
  opt_headers : option bool;
  opt_overwrite : option bool;
  opt_fields : option (list (string * field));
  opt_flushInterval : option Z;
  opt_flushLines : option Z;
  opt_path : option pathopt;
  opt_others : list (string * value)
}.

(** What [new File] is called with: [null], or anything else.  [None] is
    [undefined] (no argument); every other value is seen through the twelve
    keys, a number or a string as a value that has none of them.  An
    [option Options] is read as the argument it is. *)
Inductive constructor_argument : Type :=
| ArgNull
| ArgOptions (options : option Options).

#[warning="-uniform-inheritance"] Coercion ArgOptions :
  option >-> constructor_argument.

(** [options[name]] on [null] throws a [TypeError]. *)
Definition _getOne {A : Type} (options : constructor_argument)
  (name : Options -> option A) (defaultValue : A) : exn + A :=
  match options with
  | ArgNull => inl TypeError
  | ArgOptions None => inr defaultValue
  | ArgOptions (Some o) =>
      match name o with
      | None => inr defaultValue
      | Some v => inr v
      end
  end.

(** [os_EOL] is [require('os').EOL]. *)
Definition _getOptions (os_EOL : string) (options : constructor_argument)
  : exn + Public :=
  sum_bind (_getOne options opt_encoding "utf8") (fun enc =>
  sum_bind (_getOne options opt_delimeter ",") (fun sep =>
  sum_bind (_getOne options opt_quote double_quote) (fun q =>
  sum_bind (_getOne options opt_escape backslash) (fun esc =>
  sum_bind (_getOne options opt_nullValue "NULL") (fun nul =>
  sum_bind (_getOne options opt_eol os_EOL) (fun line_end =>
  sum_bind (_getOne options opt_headers true) (fun with_headers =>
  sum_bind (_getOne options opt_overwrite true) (fun overwriting =>
  sum_bind (_getOne options opt_fields []) (fun schema =>
  sum_bind (_getOne options opt_flushInterval 0%Z) (fun interval =>
  sum_bind (_getOne options opt_flushLines 0%Z) (fun lines =>
  sum_bind (_getOne options (fun o => option_map Some (opt_path o)) None)
  (fun given_path =>
  match given_path with
  | None => inl missing_option_path
  | Some p =>
      inr {| encoding := enc; delimeter := sep; quote := q; escape := esc;
             nullValue := nul; eol := line_end;
             headers := with_headers; overwrite := overwriting;
             fields := schema;
             flushInterval := interval; flushLines := lines;
             path := p |}
  end)))))))))))).

Definition _open (p : Public) : File * list effect :=
  let timed := (0 <? flushInterval p)%Z in
  ({| this := p;
      priv := {| lastPath := None;
                 buffer := [];
                 timerFlushInterval :=
                   if timed then TimerHandle else TimerUndefined;
                 open := true |} |},
   if timed then [SetInterval (flushInterval p)] else []).

(** [new File(options)]. *)
Definition new_File (os_EOL : string) (options : constructor_argument)
  : exn + (File * list effect) :=
  match _getOptions os_EOL options with
  | inl e => inl e
  | inr p => inr (_open p)
  end.

(** ** The private functions *)

Definition _requireOpen : M unit :=
  f <- read ;;
  if open (priv f) then ret tt else throw file_not_open.

(** What the outside answers during one call: whether a path exists, and
    what [this.path()] returns when the option is a function. *)
Record Env : Type := {
  existsSync : string -> bool;
  path_call : string
}.

Definition _getPath (env : Env) (f : File) : string :=
  match path (this f) with
  | PathString s => s
  | PathFunction => path_call env
  end.

(** The own enumerable properties [Object.keys] and [data[name]] see.
    [Object.keys(null)] throws.  [add] lets only [null], arrays and objects
    through to here and [_buildLinedata] keeps the arrays for itself, so the
    last case is never taken by a call of [add]. *)
Definition own_properties (data : jsdata) : exn + list (string * value) :=
  match data with
  | DUndefined | DNull => inl TypeError
  | DObject props => inr props
  | _ => inr []
  end.

(** The loop of [_autodetectFields]: a name under which [this.fields] has
    nothing, own or inherited, becomes a new own property. *)
Fixpoint _autodetectFields_names (names : list string)
  (fs : list (string * field)) : list (string * field) :=
  match names with
  | [] => fs
  | name :: rest =>
      if is_defined name fs
      then _autodetectFields_names rest fs
      else _autodetectFields_names rest
             (fs ++ [(name, {| quoted := true |})])%list
  end.

Definition _autodetectFields (data : jsdata) : M unit :=
  props <- lift (own_properties data) ;;
  modify (fun f =>
    set_fields (_autodetectFields_names (Object_keys props) (fields (this f))) f).

Definition _buildLinedata (data : jsdata) : M (list value) :=
  match data with
  | DArray items => ret items
  | _ =>
      _autodetectFields data ;;
      props <- lift (own_properties data) ;;
      f <- read ;;
      ret (map (fun name => get_value name props)
               (Object_keys (fields (this f))))
  end.

Definition _enquote (f : File) (v : value) : exn + string :=
  match v with
  | VUndefined | VNull => inl TypeError
  | _ =>
      match toString_member v with
      | None => inl not_a_string
      | Some s =>
          inr (quote (this f)
               ++ String_replace s (quote (this f))
                    (escape (this f) ++ quote (this f))
               ++ quote (this f))
      end
  end.

Definition _generateCsvHeaders (f : File) : exn + string :=
  sum_bind (map_from (fun name _ => _enquote f (VString name)) 0
                     (Object_keys (fields (this f))))
           (fun cells =>
              inr (join_strings (delimeter (this f)) cells ++ eol (this f))).

(** One cell of [_generateCsvData]: [fieldIndices[index]] past the end is
    [undefined], and [this.fields[undefined]] reads the key "undefined".
    The key read is an own key or "undefined", which [Object.prototype] does
    not have, so the field is the own property or nothing. *)
Definition render_cell (f : File) (v : value) (index : nat) : exn + value :=
  let fieldIndices := Object_keys (fields (this f)) in
  let fld := get (nth index fieldIndices "undefined") (fields (this f)) in
  match v with
  | VUndefined | VNull => inr (VString (nullValue (this f)))
  | _ =>
      match fld with
      | None => inl TypeError
      | Some fc =>
          if quoted fc
          then sum_bind (_enquote f v) (fun s => inr (VString s))
          else inr v
      end
  end.

Definition render_line (f : File) (lineData : list value) : exn + string :=
  let fieldIndices := Object_keys (fields (this f)) in
  sum_bind (map_from (render_cell f) 0 lineData) (fun line =>
  let line' :=
    (line ++ repeat (VString (nullValue (this f)))
                    (List.length fieldIndices - List.length line))%list in
  sum_bind (Array_join (delimeter (this f)) line') (fun text =>
  inr (text ++ eol (this f)))).

Definition _generateCsvData (f : File) : exn + string :=
  sum_bind (map_from (fun lineData _ => render_line f lineData) 0
                     (buffer (priv f)))
           (fun lines => inr (join_strings EmptyString lines)).

(** ** The public operations *)

(** [_(this).lastPath != path]: [lastPath] is [null] until a flush records
    a path. *)
Definition lastPath_differs (lp : option string) (p : string) : bool :=
  match lp with
  | None => true
  | Some l => negb (String.eqb l p)
  end.

(** The encodings [Buffer.isEncoding] knows, whatever the case of their
    letters. *)
Definition lower (c : ascii) : ascii :=
  let n := nat_of_ascii c in
  if (65 <=? n)%nat && (n <=? 90)%nat then ascii_of_nat (n + 32) else c.

Fixpoint toLowerCase (s : string) : string :=
  match s with
  | EmptyString => EmptyString
  | String c r => String (lower c) (toLowerCase r)
  end.

Definition Buffer_isEncoding (enc : string) : bool :=
  existsb (String.eqb (toLowerCase enc))
    ["utf8"; "utf-8"; "hex"; "base64"; "base64url"; "ascii"; "latin1";
     "binary"; "ucs2"; "ucs-2"; "utf16le"; "utf-16le"].

Fixpoint has_null_byte (s : string) : bool :=
  match s with
  | EmptyString => false
  | String c r => Ascii.eqb c zero || has_null_byte r
  end.

(** [fs.writeFile(path, csv, {encoding}, callback)] and [fs.appendFile]
    check their arguments before they start the write, and throw a
    [TypeError] to their caller for an encoding that is neither empty nor
    known, and for a path that holds a null byte.  Whatever goes wrong
    later is reported to the callback. *)
Definition fs_write_throws (p enc : string) : bool :=
  (negb (String.eqb enc EmptyString) && negb (Buffer_isEncoding enc))
  || has_null_byte p.

(** The callback given to [fs.writeFile] and [fs.appendFile]; [err] is
    [None] when the write went through. *)
Definition write_callback (err : option string) (p csv : string) : M unit :=
  match err with
  | Some e => perform (Emit_error e p csv)
  | None => ret tt
  end.

Definition flush (env : Env) : M unit :=
  _requireOpen ;;
  f <- read ;;
  if Nat.eqb (List.length (buffer (priv f))) 0 then ret tt
  else
    let p := _getPath env f in
    header <-
      (if headers (this f) && lastPath_differs (lastPath (priv f)) p
          && (overwrite (this f) || existsSync env p)
       then lift (_generateCsvHeaders f) else ret EmptyString) ;;
    data <- lift (_generateCsvData f) ;;
    let csv := header ++ data in
    modify (set_buffer []) ;;
    perform (Emit_data p csv) ;;
    perform (if overwrite (this f) && lastPath_differs (lastPath (priv f)) p
             then WriteFile p csv (encoding (this f))
             else AppendFile p csv (encoding (this f))) ;;
    (if fs_write_throws p (encoding (this f))
     then throw TypeError else ret tt) ;;
    modify (set_lastPath (Some p)).

(** The two tests that end [add]: the row count first, then the case of no
    threshold at all. *)
Definition flush_if_due (env : Env) : M unit :=
  f <- read ;;
  if (0 <? flushLines (this f))%Z
     && (flushLines (this f) <? Z.of_nat (List.length (buffer (priv f))))%Z
  then flush env
  else if (flushLines (this f) =? 0)%Z && (flushInterval (this f) =? 0)%Z
  then flush env
  else ret tt.

Definition add (env : Env) (data : jsdata) : M unit :=
  _requireOpen ;;
  (if negb (jstype_eqb (typeof data) TyObject)
   then throw invalid_data else ret tt) ;;
  row <- _buildLinedata data ;;
  modify (fun f => set_buffer (buffer (priv f) ++ [row]) f) ;;
  flush_if_due env.

Definition timer_is_null (t : timer) : bool :=
  match t with TimerNull => true | _ => false end.

Definition complete (env : Env) : M unit :=
  _requireOpen ;;
  f <- read ;;
  (if negb (timer_is_null (timerFlushInterval (priv f)))
   then perform (ClearInterval (timerFlushInterval (priv f))) ;;
        modify (set_timerFlushInterval TimerNull)
   else ret tt) ;;
  flush env ;;
  modify (set_open false).

(** The callback given to [setInterval]. *)
Definition interval_callback (env : Env) : M unit := flush env.

(** A run of [add] calls, each with what the outside answers during it; the
    run stops at the first exception. *)
Fixpoint add_all (calls : list (Env * jsdata)) : M unit :=
  match calls with
  | [] => ret tt
  | (env, data) :: rest => add env data ;; add_all rest
  end.

(** ** Pure readings of the rendering and of the decisions of [flush] *)

(** The text of a quoted string: [_enquote] on a string cannot throw. *)
Definition enquote_text (f : File) (s : string) : string :=
  quote (this f)
  ++ String_replace s (quote (this f)) (escape (this f) ++ quote (this f))
  ++ quote (this f).

Definition header_line (f : File) : string :=
  join_strings (delimeter (this f))
               (map (enquote_text f) (Object_keys (fields (this f))))
  ++ eol (this f).

(** The path of this flush is not the one the last flush wrote to. *)
Definition new_destination (env : Env) (f : File) : bool :=
  match lastPath (priv f) with
  | Some l => negb (String.eqb l (_getPath env f))
  | None => true
  end.

(** The three decisions of [flush]. *)
Definition emits_header (env : Env) (f : File) : bool :=
  headers (this f)
  && new_destination env f
  && (overwrite (this f) || existsSync env (_getPath env f)).

Definition overwrites (env : Env) (f : File) : bool :=
  overwrite (this f) && new_destination env f.

Definition dispatch (env : Env) (f : File) (csv : string) : effect :=
  if overwrites env f
  then WriteFile (_getPath env f) csv (encoding (this f))
  else AppendFile (_getPath env f) csv (encoding (this f)).

(** The object once [add] has pushed the row of [data], before the tests
    that may flush it. *)
Definition pushed (data : jsdata) (f : File) : File :=
  let o := _buildLinedata data f in
  match result o with
  | inr row => set_buffer (buffer (priv (final o)) ++ [row]) (final o)
  | inl _ => final o
  end.

Definition pushed_all (rows : list jsdata) (f : File) : File :=
  fold_left (fun g data => pushed data g) rows f.

(** The arguments [add] takes for rows: arrays and objects. *)
Definition is_row (data : jsdata) : bool :=
  match data with
  | DArray _ | DObject _ => true
  | _ => false
  end.

(** ** Objects and calls used in the examples *)

Definition LF : string := Eval cbv in String (ascii_of_nat 10) EmptyString.

(** [{path: 'out.csv'}] with, when given, [flushLines], [quote] and [escape],
    and with [others] as further keys. *)
Definition options_with (lines : option Z) (q e : option string)
  (others : list (string * value)) : Options :=
  {| opt_encoding := None; opt_delimeter := None;
     opt_quote := q; opt_escape := e;
     opt_nullValue := None; opt_eol := None;
     opt_headers := None; opt_overwrite := None;
     opt_fields := None;
     opt_flushInterval := None; opt_flushLines := lines;
     opt_path := Some (PathString "out.csv");
     opt_others := others |}.

(** What [_getOptions] makes of them. *)
Definition public_with (os_EOL : string) (lines : Z) (q e : string) : Public :=
  {| encoding := "utf8"; delimeter := ","; quote := q; escape := e;
     nullValue := "NULL"; eol := os_EOL;
     headers := true; overwrite := true; fields := [];
     flushInterval := 0%Z; flushLines := lines;
     path := PathString "out.csv" |}.

Definition fresh (p : Public) : File := fst (_open p).

Definition an_env : Env :=
  {| existsSync := fun _ => false; path_call := "fn.csv" |}.

(** [new File({path: 'out.csv', flushLines: 5})] after
    [add({a: Object.create(null)})]: one buffered row that cannot be
    rendered. *)
Definition file_unrenderable : File :=
  final (add an_env (DObject [("a", VOther None)])
             (fresh (public_with LF 5 double_quote backslash))).

(** The same after [add({a: 'x'})]: one buffered row that renders. *)
Definition file_one_row : File :=
  final (add an_env (DObject [("a", VString "x")])
             (fresh (public_with LF 5 double_quote backslash))).

(** A schema of two columns, [a] and [b], and an empty buffer: after
    [add({a: '1', b: '2'})] and [flush()]. *)
Definition file_two_columns : File :=
  final (flush an_env
           (final (add an_env (DObject [("a", VString "1"); ("b", VString "2")])
                       (fresh (public_with LF 5 double_quote backslash))))).

(** [new File({path: 'out.csv', flushLines: 5})] after [add(['x'])]: a row
    of one value and no column. *)
Definition file_excess : File :=
  final (add an_env (DArray [VString "x"])
             (fresh (public_with LF 5 double_quote backslash))).

(** [{path: 'out.csv', flushLines: 5, fields: {constructor: {quoted:
    true}}}], and the object [new File] makes of them. *)
Definition options_constructor_column : Options :=
  {| opt_encoding := None; opt_delimeter := None;
     opt_quote := None; opt_escape := None;
     opt_nullValue := None; opt_eol := None;
     opt_headers := None; opt_overwrite := None;
     opt_fields := Some [("constructor", {| quoted := true |})];
     opt_flushInterval := None; opt_flushLines := Some 5%Z;
     opt_path := Some (PathString "out.csv");
     opt_others := [] |}.

Definition file_constructor_column : File :=
  fresh {| encoding := "utf8"; delimeter := ",";
           quote := double_quote; escape := backslash;
           nullValue := "NULL"; eol := LF;
           headers := true; overwrite := true;
           fields := [("constructor", {| quoted := true |})];
           flushInterval := 0%Z; flushLines := 5%Z;
           path := PathString "out.csv" |}.

(** [new File({path: 'out.csv', quote: '$', escape: '$'})]. *)
Definition file_dollar : File := fresh (public_with LF 0 "$" "$").

(** No dollar in a string: [replace] then takes it as it is written. *)
Fixpoint dollar_free (s : string) : bool :=
  match s with
  | EmptyString => true
  | String c r => negb (Ascii.eqb c "$") && dollar_free r
  end.

(** ** Callers *)

(** One call of a public operation.  The callback given to [setInterval] is
    a call of [flush]. *)
Inductive call : Type :=
| CallAdd (env : Env) (data : jsdata)
| CallFlush (env : Env)
| CallComplete (env : Env).

Definition perform_call (c : call) : M unit :=
  match c with
  | CallAdd env data => add env data
  | CallFlush env => flush env
  | CallComplete env => complete env
  end.

(** A caller that makes the calls one after the other and catches whatever
    they throw: the object and the effects at the end. *)
Fixpoint run_calls (cs : list call) (f : File) : File * list effect :=
  match cs with
  | [] => (f, [])
  | c :: rest =>
      let o := perform_call c f in
      let r := run_calls rest (final o) in
      (fst r, (trace o ++ snd r)%list)
  end.

(** [examples/3-1-usage-minimal.js]: the options, the three rows and the
    script, which catches nothing.  The number 1564 is seen through its
    text. *)
Definition usage_minimal_options : Options :=
  {| opt_encoding := None; opt_delimeter := None;
     opt_quote := None; opt_escape := None;
     opt_nullValue := None; opt_eol := None;
     opt_headers := None; opt_overwrite := None;
     opt_fields := None;
     opt_flushInterval := None; opt_flushLines := None;
     opt_path := Some (PathString "celebrities.csv");
     opt_others := [] |}.

Definition einstein : jsdata :=
  DObject [("Name", VString "Albert Einstein");
           ("Expertise", VString "Relativity")].

Definition galilei : jsdata :=
  DObject [("Name", VString "Galileo Galilei");
           ("Expertise", VString "Gravity");
           ("Birthyear", VOther (Some "1564"))].

Definition shen_kuo : jsdata :=
  DObject [("Name", VString "Shen Kuo");
           ("Expertise", VString "Astronomy")].

Definition usage_minimal (os_EOL : string) (env1 env2 env3 env4 : Env)
  : exn + (list effect * Outcome unit) :=
  match new_File os_EOL (Some usage_minimal_options) with
  | inl e => inl e
  | inr (file, started) =>
      inr (started,
           (add env1 einstein ;; add env2 galilei ;; add env3 shen_kuo ;;
            complete env4) file)
  end.

(** ** Predicates on cells, objects and traces *)

Definition is_nullish (v : value) : bool :=
  match v with
  | VUndefined | VNull => true
  | _ => false
  end.

(** The value has a [toString] member. *)
Definition has_toString (v : value) : bool :=
  match toString_member v with Some _ => true | None => false end.

(** [join] can convert the value. *)
Definition joins (v : value) : bool :=
  match join_element v with inr _ => true | inl _ => false end.

(** A value that can be written in any column, quoted or not: [undefined],
    [null], or a value that has a [toString] and that [join] converts. *)
Definition stringable (v : value) : bool :=
  is_nullish v || (has_toString v && joins v).

(** A value that can be written in no column: it has no [toString] and
    [join] cannot convert it. *)
Definition unwritable (v : value) : bool :=
  negb (is_nullish v) && negb (has_toString v) && negb (joins v).

(** The cell at [index] can be written: the value is [undefined] or [null],
    or [this.fields[fieldIndices[index]]] is a field and the value has what
    the field asks for, a [toString] in a quoted column and a conversion by
    [join] in one that is not quoted. *)
Definition cell_renders (f : File) (index : nat) (v : value) : bool :=
  is_nullish v
  || match get (nth index (Object_keys (fields (this f))) "undefined")
               (fields (this f)) with
     | Some fc => if quoted fc then has_toString v else joins v
     | None => false
     end.

(** Rows that fit the schema and hold only values that can be written in any
    column. *)
Definition row_fits (f : File) (row : list value) : Prop :=
  (List.length row <= List.length (fields (this f)))%nat
  /\ Forall (fun v => stringable v = true) row.

Definition clean (f : File) : Prop :=
  open (priv f) = true /\ Forall (row_fits f) (buffer (priv f)).

(** An open object whose buffer holds a value that can be written in no
    column. *)
Definition poisoned (f : File) : Prop :=
  open (priv f) = true
  /\ exists row v,
       In row (buffer (priv f)) /\ In v row /\ unwritable v = true.

(** The text of the cell of [v] at [index] in a line: what [join] makes of
    the cell. *)
Definition cell_text (f : File) (index : nat) (v : value) : exn + string :=
  sum_bind (render_cell f v index) join_element.

Definition is_ClearInterval (e : effect) : bool :=
  match e with ClearInterval _ => true | _ => false end.

Definition is_WriteFile (e : effect) : bool :=
  match e with WriteFile _ _ _ => true | _ => false end.

(** A trace in which every write comes right after the ['data'] event of
    the same path and text, and is made with the encoding [enc]; between
    them only timers are cleared. *)
Inductive announced (enc : string) : list effect -> Prop :=
| announced_nil : announced enc []
| announced_clear (t : timer) (rest : list effect) :
    announced enc rest -> announced enc (ClearInterval t :: rest)
| announced_write (p csv : string) (rest : list effect) :
    announced enc rest ->
    announced enc (Emit_data p csv :: WriteFile p csv enc :: rest)
| announced_append (p csv : string) (rest : list effect) :
    announced enc rest ->
    announced enc (Emit_data p csv :: AppendFile p csv enc :: rest).

(** [g] is [f] with more fields, added after the ones [f] had, all of them
    quoted and of names under which [f] had nothing, own or inherited, and
    with whatever private state; every other property on [this] is the one
    of [f]. *)
Definition grown_from (f g : File) : Prop :=
  exists added,
    this g = this (set_fields (fields (this f) ++ added) f)
    /\ Forall (fun kc => quoted (snd kc) = true
                         /\ get (fst kc) (fields (this f)) = None
                         /\ inherited (fst kc) = None) added.

(** More objects for the examples: [{path: 'out.csv', overwrite: false}]
    after [add({a: 'x'})] with nothing flushed yet, and an object with two
    buffered rows, [{a: '1'}] then [{b: '2'}]. *)
Definition file_append : File :=
  final (add an_env (DObject [("a", VString "x")])
           (fresh {| encoding := "utf8"; delimeter := ",";
                     quote := double_quote; escape := backslash;
                     nullValue := "NULL"; eol := LF;
                     headers := true; overwrite := false; fields := [];
                     flushInterval := 0%Z; flushLines := 5%Z;
                     path := PathString "out.csv" |})).

Definition file_two_rows : File :=
  final (add an_env (DObject [("b", VString "2")])
           (final (add an_env (DObject [("a", VString "1")])
                     (fresh (public_with LF 5 double_quote backslash))))).

(** [file_one_row] after [flush()] and [add({a: 'y'})]: a row to write to
    the path written last. *)
Definition file_second_row : File :=
  final (add an_env (DObject [("a", VString "y")])
           (final (flush an_env file_one_row))).

(** An object whose [path] is a function, after [add({a: 'x'})], a flush
    during which the function returned ['fn.csv'], and [add({a: 'y'})]; and
    an outside where it returns ['other.csv']. *)
Definition file_by_function : File :=
  let f0 :=
    fresh {| encoding := "utf8"; delimeter := ",";
             quote := double_quote; escape := backslash;
             nullValue := "NULL"; eol := LF;
             headers := true; overwrite := true; fields := [];
             flushInterval := 0%Z; flushLines := 5%Z;
             path := PathFunction |} in
  final (add an_env (DObject [("a", VString "y")])
           (final (flush an_env
                     (final (add an_env (DObject [("a", VString "x")]) f0))))).

Definition other_env : Env :=
  {| existsSync := fun _ => false; path_call := "other.csv" |}.

(** An outside where every path exists. *)
Definition env_exists : Env :=
  {| existsSync := fun _ => true; path_call := "fn.csv" |}.

(** [new File({path: 'out.csv', flushLines: 5, encoding: 'nope'})] after
    [add({a: 'x'})]: a row to write with an encoding [fs] does not know. *)
Definition file_bad_encoding : File :=
  final (add an_env (DObject [("a", VString "x")])
           (fresh {| encoding := "nope"; delimeter := ",";
                     quote := double_quote; escape := backslash;
                     nullValue := "NULL"; eol := LF;
                     headers := true; overwrite := true; fields := [];
                     flushInterval := 0%Z; flushLines := 5%Z;
                     path := PathString "out.csv" |})).

(** A Symbol, which has a [toString] and which [join] cannot convert, and
    an object with a [valueOf] and without [toString], which [join] converts
    to "1". *)
Definition a_symbol : value := VExotic (Some "Symbol(s)") None.
Definition valueOf_only : value := VExotic None (Some "1").

(** [new File({path: 'out.csv', flushLines: 5, fields: {a: {quoted:
    false}, b: {quoted: true}}})] after [add([v, w])]. *)
Definition file_columns_a_b (v w : value) : File :=
  final (add an_env (DArray [v; w])
           (fresh {| encoding := "utf8"; delimeter := ",";
                     quote := double_quote; escape := backslash;
                     nullValue := "NULL"; eol := LF;
                     headers := true; overwrite := true;
                     fields := [("a", {| quoted := false |});
                                ("b", {| quoted := true |})];
                     flushInterval := 0%Z; flushLines := 5%Z;
                     path := PathString "out.csv" |})).

(** * Properties *)

(** ** Unfolding the operations *)

Lemma map_from_pure {A B : Type} (g : A -> B) (l : list A) :
  forall index,
    map_from (fun x _ => @inr exn B (g x)) index l = inr (map g l).
Proof.
  induction l as [|x rest IH]; intro index; simpl.
  - reflexivity.
  - rewrite IH. reflexivity.
Qed.

Lemma _generateCsvHeaders_total (f : File) :
  _generateCsvHeaders f = inr (header_line f).
Proof.
  unfold _generateCsvHeaders, header_line.
  change (fun (name : string) (_ : nat) => _enquote f (VString name))
    with (fun (name : string) (_ : nat) => @inr exn string (enquote_text f name)).
  rewrite map_from_pure. reflexivity.
Qed.

Lemma flush_closed (env : Env) (f : File) :
  open (priv f) = false ->
  flush env f = {| final := f; trace := []; result := inl file_not_open |}.
Proof.
  intro Hc. unfold flush, bind, _requireOpen, read. simpl.
  rewrite Hc. reflexivity.
Qed.

Lemma flush_empty (env : Env) (f : File) :
  open (priv f) = true -> buffer (priv f) = [] ->
  flush env f = {| final := f; trace := []; result := inr tt |}.
Proof.
  intros Ho Hb. unfold flush, bind, _requireOpen, read. simpl.
  rewrite Ho. simpl. rewrite Hb. reflexivity.
Qed.

Lemma flush_throws (env : Env) (f : File) (e : exn) :
  open (priv f) = true -> buffer (priv f) <> [] ->
  _generateCsvData f = inl e ->
  flush env f = {| final := f; trace := []; result := inl e |}.
Proof.
  intros Ho Hb Hd. unfold flush, bind, _requireOpen, read. simpl.
  rewrite Ho. simpl.
  destruct (buffer (priv f)) as [|r rs] eqn:Eb; [congruence|]. simpl.
  destruct (headers (this f) && lastPath_differs (lastPath (priv f)) (_getPath env f)
            && (overwrite (this f) || existsSync env (_getPath env f))); simpl.
  - unfold lift. rewrite _generateCsvHeaders_total. simpl. rewrite Hd. reflexivity.
  - rewrite Hd. reflexivity.
Qed.

(** A flush whose rows render hands out the text and makes the write call;
    it records the path when the call returns, and throws what the call
    throws. *)
Lemma flush_renders (env : Env) (f : File) (data : string) :
  open (priv f) = true -> buffer (priv f) <> [] ->
  _generateCsvData f = inr data ->
  flush env f =
    let csv := (if emits_header env f then header_line f else EmptyString) ++ data in
    let refused := fs_write_throws (_getPath env f) (encoding (this f)) in
    {| final := if refused then set_buffer [] f
                else set_lastPath (Some (_getPath env f)) (set_buffer [] f);
       trace := [Emit_data (_getPath env f) csv; dispatch env f csv];
       result := if refused then inl TypeError else inr tt |}.
Proof.
  intros Ho Hb Hd.
  unfold flush, bind, _requireOpen, read, dispatch, overwrites, emits_header,
    new_destination.
  simpl. rewrite Ho. simpl.
  destruct (buffer (priv f)) as [|r rs] eqn:Eb; [congruence|]. simpl.
  fold (lastPath_differs (lastPath (priv f)) (_getPath env f)).
  destruct (headers (this f) && lastPath_differs (lastPath (priv f)) (_getPath env f)
            && (overwrite (this f) || existsSync env (_getPath env f))); simpl.
  - unfold lift. rewrite _generateCsvHeaders_total. simpl. rewrite Hd. simpl.
    destruct (fs_write_throws (_getPath env f) (encoding (this f))); reflexivity.
  - rewrite Hd. simpl.
    destruct (fs_write_throws (_getPath env f) (encoding (this f))); reflexivity.
Qed.

Lemma flush_writes (env : Env) (f : File) (data : string) :
  open (priv f) = true -> buffer (priv f) <> [] ->
  _generateCsvData f = inr data ->
  fs_write_throws (_getPath env f) (encoding (this f)) = false ->
  flush env f =
    let csv := (if emits_header env f then header_line f else EmptyString) ++ data in
    {| final := set_lastPath (Some (_getPath env f)) (set_buffer [] f);
       trace := [Emit_data (_getPath env f) csv; dispatch env f csv];
       result := inr tt |}.
Proof.
  intros Ho Hb Hd Hw. rewrite (flush_renders env f data Ho Hb Hd).
  cbv zeta. rewrite Hw. reflexivity.
Qed.

Lemma flush_refused (env : Env) (f : File) (data : string) :
  open (priv f) = true -> buffer (priv f) <> [] ->
  _generateCsvData f = inr data ->
  fs_write_throws (_getPath env f) (encoding (this f)) = true ->
  flush env f =
    let csv := (if emits_header env f then header_line f else EmptyString) ++ data in
    {| final := set_buffer [] f;
       trace := [Emit_data (_getPath env f) csv; dispatch env f csv];
       result := inl TypeError |}.
Proof.
  intros Ho Hb Hd Hw. rewrite (flush_renders env f data Ho Hb Hd).
  cbv zeta. rewrite Hw. reflexivity.
Qed.

Create HintDb csv.
#[local] Hint Resolve flush_closed flush_empty flush_throws flush_writes
  flush_refused : csv.

(** ** The header decision *)

Lemma new_destination_spec (env : Env) (f : File) :
  new_destination env f = true <-> lastPath (priv f) <> Some (_getPath env f).
Proof.
  unfold new_destination. destruct (lastPath (priv f)) as [l|].
  - destruct (String.eqb_spec l (_getPath env f)) as [-> | Hne]; simpl.
    + split; [discriminate | intro H; exfalso; apply H; reflexivity].
    + split; [intros _ E; injection E as E; contradiction | reflexivity].
  - split; [discriminate | reflexivity].
Qed.

Lemma emits_header_spec (env : Env) (f : File) :
  emits_header env f = true
  <-> headers (this f) = true
      /\ lastPath (priv f) <> Some (_getPath env f)
      /\ (overwrite (this f) = true \/ existsSync env (_getPath env f) = true).
Proof.
  unfold emits_header.
  rewrite !andb_true_iff, orb_true_iff, new_destination_spec. tauto.
Qed.

Lemma overwrites_spec (env : Env) (f : File) :
  overwrites env f = true
  <-> overwrite (this f) = true /\ lastPath (priv f) <> Some (_getPath env f).
Proof.
  unfold overwrites. rewrite andb_true_iff, new_destination_spec. tauto.
Qed.

(** C1. A flush of a non-empty buffer whose rows render hands out one text,
    to the listeners and to the file system alike: the header line followed
    by the rendered rows when [headers] is set, the path is not the one in
    [lastPath] and ([overwrite] is set or the path exists); the rendered rows
    alone otherwise.  The write replaces the file when [overwrite] is set and
    the path is not the one in [lastPath], and appends otherwise. *)
Theorem flush_header_decision (env : Env) (f : File) (data : string) :
  open (priv f) = true ->
  buffer (priv f) <> [] ->
  _generateCsvData f = inr data ->
  let p := _getPath env f in
  let with_header :=
    headers (this f) = true
    /\ lastPath (priv f) <> Some p
    /\ (overwrite (this f) = true \/ existsSync env p = true) in
  let replaces := overwrite (this f) = true /\ lastPath (priv f) <> Some p in
  _generateCsvHeaders f = inr (header_line f)
  /\ exists csv write,
       trace (flush env f) = [Emit_data p csv; write]
       /\ (with_header -> csv = header_line f ++ data)
       /\ (~ with_header -> csv = data)
       /\ (replaces -> write = WriteFile p csv (encoding (this f)))
       /\ (~ replaces -> write = AppendFile p csv (encoding (this f))).
Proof.
  intros Ho Hb Hd p with_header replaces. split; [apply _generateCsvHeaders_total|].
  rewrite (flush_renders env f data Ho Hb Hd). cbv zeta. simpl.
  pose proof (emits_header_spec env f) as Hh.
  pose proof (overwrites_spec env f) as Hw.
  fold p in Hh, Hw. fold with_header in Hh. fold replaces in Hw.
  eexists. eexists. split; [reflexivity|].
  unfold dispatch. fold p.
  destruct (emits_header env f); destruct (overwrites env f);
    repeat match goal with |- _ /\ _ => split end;
    intro H; try reflexivity;
    solve [ exfalso; apply H; tauto
          | apply Hh in H; discriminate H
          | apply Hw in H; discriminate H ].
Qed.

(** ** What a flush changes *)

(** The five ways a call of [flush] can go. *)
Lemma flush_cases (env : Env) (f : File) :
  (open (priv f) = false /\
   flush env f = {| final := f; trace := []; result := inl file_not_open |})
  \/ (open (priv f) = true /\ buffer (priv f) = [] /\
      flush env f = {| final := f; trace := []; result := inr tt |})
  \/ (exists e, open (priv f) = true /\ buffer (priv f) <> [] /\
        _generateCsvData f = inl e /\
        flush env f = {| final := f; trace := []; result := inl e |})
  \/ (exists data, open (priv f) = true /\ buffer (priv f) <> [] /\
        _generateCsvData f = inr data /\
        fs_write_throws (_getPath env f) (encoding (this f)) = false /\
        flush env f =
          let csv :=
            (if emits_header env f then header_line f else EmptyString) ++ data in
          {| final := set_lastPath (Some (_getPath env f)) (set_buffer [] f);
             trace := [Emit_data (_getPath env f) csv; dispatch env f csv];
             result := inr tt |})
  \/ (exists data, open (priv f) = true /\ buffer (priv f) <> [] /\
        _generateCsvData f = inr data /\
        fs_write_throws (_getPath env f) (encoding (this f)) = true /\
        flush env f =
          let csv :=
            (if emits_header env f then header_line f else EmptyString) ++ data in
          {| final := set_buffer [] f;
             trace := [Emit_data (_getPath env f) csv; dispatch env f csv];
             result := inl TypeError |}).
Proof.
  destruct (open (priv f)) eqn:Ho.
  - right. destruct (buffer (priv f)) as [|r rs] eqn:Eb.
    + left. auto with csv.
    + right. assert (Hb : buffer (priv f) <> []) by (rewrite Eb; discriminate).
      rewrite <- Eb.
      destruct (_generateCsvData f) as [e|data] eqn:Hd.
      * left. exists e. auto with csv.
      * right.
        destruct (fs_write_throws (_getPath env f) (encoding (this f))) eqn:Hw.
        -- right. exists data. auto 6 with csv.
        -- left. exists data. auto 6 with csv.
  - left. auto with csv.
Qed.

(** Case analysis on a call of [flush], with the equation of each case. *)
Ltac split_flush env f :=
  let e := fresh "e" in
  let text := fresh "text" in
  destruct (flush_cases env f)
    as [[Hopen Hrun]
       | [[Hopen [Hbuf Hrun]]
         | [[e [Hopen [Hbuf [Hdata Hrun]]]]
           | [[text [Hopen [Hbuf [Hdata [Hwrite Hrun]]]]]
             | [text [Hopen [Hbuf [Hdata [Hwrite Hrun]]]]]]]]].

Lemma flush_keeps_this (env : Env) (f : File) :
  this (final (flush env f)) = this f.
Proof. split_flush env f; rewrite Hrun; reflexivity. Qed.

(** C10. A call of [flush] leaves the properties on [this], the field schema
    among them, the timer and the open flag as they were: the object after
    the call is the object before it with at most another buffer and
    another [lastPath].  The buffer is as it was or empty, and empty after a
    call that returns and after a call that issued anything; [lastPath] is
    as it was or the path of this flush.  A call on an empty buffer, and a
    call that issues nothing, change nothing. *)
Theorem flush_frame (env : Env) (f : File) :
  let o := flush env f in
  final o =
    set_lastPath (lastPath (priv (final o)))
                 (set_buffer (buffer (priv (final o))) f)
  /\ this (final o) = this f
  /\ (buffer (priv (final o)) = buffer (priv f)
      \/ buffer (priv (final o)) = [])
  /\ (lastPath (priv (final o)) = lastPath (priv f)
      \/ lastPath (priv (final o)) = Some (_getPath env f))
  /\ (result o = inr tt -> buffer (priv (final o)) = [])
  /\ (trace o <> [] -> buffer (priv (final o)) = [])
  /\ (trace o = [] -> final o = f)
  /\ (buffer (priv f) = [] -> final o = f /\ trace o = []).
Proof.
  assert (Hid : f = set_lastPath (lastPath (priv f)) (set_buffer (buffer (priv f)) f))
    by (destruct f as [p [lp b t o]]; reflexivity).
  split_flush env f; rewrite Hrun; simpl;
    repeat match goal with |- _ /\ _ => split end;
    auto; try discriminate; try contradiction;
    try (intro H; exfalso; apply H; reflexivity).
Qed.

(** ** The last-written destination *)

(** C7, as the code has it. A flush of a non-empty buffer whose rows render
    hands out the text and makes the write call.  When the call returns,
    the path it resolved is recorded as [lastPath]; the callback of the
    write changes nothing whether the write failed or not, so the path
    stays recorded, and a later flush that resolves the same path writes no
    header and appends.  When the call throws, [flush] throws the same with
    the buffer already emptied and [lastPath] left as it was. *)
Theorem flush_records_destination (env : Env) (f : File) (data : string) :
  open (priv f) = true ->
  buffer (priv f) <> [] ->
  _generateCsvData f = inr data ->
  let p := _getPath env f in
  let f1 := final (flush env f) in
  (exists csv, trace (flush env f) = [Emit_data p csv; dispatch env f csv])
  /\ (fs_write_throws p (encoding (this f)) = false ->
      result (flush env f) = inr tt
      /\ lastPath (priv f1) = Some p
      /\ (forall env' g text,
            open (priv g) = true -> buffer (priv g) <> [] ->
            lastPath (priv g) = lastPath (priv f1) ->
            _getPath env' g = p ->
            _generateCsvData g = inr text ->
            trace (flush env' g)
              = [Emit_data p text; AppendFile p text (encoding (this g))]))
  /\ (fs_write_throws p (encoding (this f)) = true ->
      result (flush env f) = inl TypeError
      /\ lastPath (priv f1) = lastPath (priv f)
      /\ buffer (priv f1) = [])
  /\ (forall err text g, final (write_callback err p text g) = g).
Proof.
  intros Ho Hb Hd p f1. subst p f1.
  rewrite (flush_renders env f data Ho Hb Hd). cbv zeta. simpl.
  split; [eexists; reflexivity|]. split; [|split].
  - intros ->. split; [reflexivity|]. split; [reflexivity|].
    intros env' g text Ho' Hb' Hl Hp Hd'.
    rewrite (flush_renders env' g text Ho' Hb' Hd'). simpl.
    unfold emits_header, dispatch, overwrites, new_destination.
    rewrite Hp, Hl. simpl.
    rewrite String.eqb_refl. simpl.
    rewrite !andb_false_r. reflexivity.
  - intros ->. repeat split.
  - intros [err|] csv0 g; reflexivity.
Qed.

(** ** What [add] buffers *)

Lemma outcome_eta {A : Type} (o : Outcome A) :
  {| final := final o; trace := trace o; result := result o |} = o.
Proof. destruct o; reflexivity. Qed.

Lemma add_closed (env : Env) (data : jsdata) (f : File) :
  open (priv f) = false ->
  add env data f = {| final := f; trace := []; result := inl file_not_open |}.
Proof.
  intro Hc. unfold add, bind, _requireOpen, read. simpl.
  rewrite Hc. reflexivity.
Qed.

Lemma add_not_object (env : Env) (data : jsdata) (f : File) :
  open (priv f) = true ->
  typeof data <> TyObject ->
  add env data f = {| final := f; trace := []; result := inl invalid_data |}.
Proof.
  intros Ho Ht. unfold add, bind, _requireOpen, read. simpl.
  rewrite Ho. simpl.
  destruct data; simpl in *; try reflexivity; congruence.
Qed.

Lemma add_null (env : Env) (f : File) :
  open (priv f) = true ->
  add env DNull f = {| final := f; trace := []; result := inl TypeError |}.
Proof.
  intro Ho. unfold add, bind, _requireOpen, read. simpl.
  rewrite Ho. reflexivity.
Qed.

Lemma _buildLinedata_object (props : list (string * value)) (f : File) :
  _buildLinedata (DObject props) f =
    let f1 :=
      set_fields (_autodetectFields_names (Object_keys props) (fields (this f))) f in
    {| final := f1; trace := [];
       result := inr (map (fun name => get_value name props)
                          (Object_keys (fields (this f1)))) |}.
Proof. reflexivity. Qed.

Lemma _buildLinedata_array (items : list value) (f : File) :
  _buildLinedata (DArray items) f =
    {| final := f; trace := []; result := inr items |}.
Proof. reflexivity. Qed.

Lemma add_row (env : Env) (data : jsdata) (f : File) :
  open (priv f) = true ->
  is_row data = true ->
  add env data f = flush_if_due env (pushed data f).
Proof.
  intros Ho Hr. rewrite <- (outcome_eta (flush_if_due env (pushed data f))).
  destruct data; try discriminate Hr.
  - unfold add, bind, _requireOpen, read, pushed. simpl. rewrite Ho. reflexivity.
  - unfold add, bind, _requireOpen, read, pushed. simpl. rewrite Ho. reflexivity.
Qed.

(** ** The keys of an object *)

Lemma insert_index_sorted (n : N) (k : string) (l : list (N * string)) :
  Sorted index_le l -> Sorted index_le (insert_index n k l).
Proof.
  induction 1 as [|[m k'] rest Hs IH Hd]; simpl.
  - repeat constructor.
  - destruct (N.leb_spec n m) as [Hle | Hgt].
    + constructor; [constructor; assumption|]. constructor. exact Hle.
    + constructor; [exact IH|].
      destruct rest as [|[m' k''] rest']; simpl.
      * constructor. unfold index_le. simpl. lia.
      * inversion Hd as [|b l' Hmm']; subst. unfold index_le in Hmm'.
        simpl in Hmm'.
        destruct (n <=? m')%N; constructor; unfold index_le; simpl; lia.
Qed.

(** The array indices come in ascending order. *)
Lemma index_keys_sorted (keys : list string) : Sorted index_le (index_keys keys).
Proof.
  induction keys as [|k rest IH]; simpl; [constructor|].
  destruct (array_index k); [apply insert_index_sorted|]; exact IH.
Qed.

Lemma insert_index_length (n : N) (k : string) (l : list (N * string)) :
  List.length (insert_index n k l) = S (List.length l).
Proof.
  induction l as [|[m k'] rest IH]; simpl; [reflexivity|].
  destruct (n <=? m)%N; simpl; [reflexivity | rewrite IH; reflexivity].
Qed.

Lemma insert_index_In (n : N) (k x : string) (l : list (N * string)) :
  In x (map snd (insert_index n k l)) <-> x = k \/ In x (map snd l).
Proof.
  induction l as [|[m k'] rest IH]; simpl.
  - intuition.
  - destruct (n <=? m)%N; simpl; [intuition|]. rewrite IH. intuition.
Qed.

Lemma index_keys_In (keys : list string) (x : string) :
  In x (map snd (index_keys keys)) <-> In x keys /\ is_array_index x = true.
Proof.
  unfold is_array_index. induction keys as [|k rest IH]; simpl.
  - tauto.
  - destruct (array_index k) as [n|] eqn:Ek.
    + rewrite insert_index_In, IH. split.
      * intros [-> | [H1 H2]]; [rewrite Ek; auto | auto].
      * intros [[<- | H1] H2]; auto.
    + rewrite IH. split.
      * intros [H1 H2]; auto.
      * intros [[<- | H1] H2]; [rewrite Ek in H2; discriminate | auto].
Qed.

Lemma index_keys_none (keys : list string) :
  Forall (fun k => is_array_index k = false) keys -> index_keys keys = [].
Proof.
  unfold is_array_index. induction 1 as [|k rest Hk _ IH]; simpl; [reflexivity|].
  destruct (array_index k); [discriminate | exact IH].
Qed.

Lemma index_keys_app_names (keys keys' : list string) :
  Forall (fun k => is_array_index k = false) keys' ->
  index_keys (keys ++ keys') = index_keys keys.
Proof.
  intro H. induction keys as [|k rest IH]; simpl.
  - apply index_keys_none. exact H.
  - rewrite IH. reflexivity.
Qed.

Lemma filter_all {A : Type} (p : A -> bool) (l : list A) :
  Forall (fun x => p x = true) l -> filter p l = l.
Proof.
  induction 1 as [|x l Hx _ IH]; simpl; [reflexivity|]. rewrite Hx, IH.
  reflexivity.
Qed.

Lemma Object_keys_length {A : Type} (obj : list (string * A)) :
  List.length (Object_keys obj) = List.length obj.
Proof.
  unfold Object_keys, is_array_index.
  rewrite length_app, length_map, <- (length_map fst obj).
  induction (map fst obj) as [|k rest IH]; simpl; [reflexivity|].
  destruct (array_index k); simpl.
  - rewrite insert_index_length. simpl. rewrite IH. reflexivity.
  - rewrite <- IH. lia.
Qed.

Lemma Object_keys_In {A : Type} (obj : list (string * A)) (k : string) :
  In k (Object_keys obj) <-> In k (map fst obj).
Proof.
  unfold Object_keys. rewrite in_app_iff, index_keys_In, filter_In.
  destruct (is_array_index k); simpl; intuition discriminate.
Qed.

(** Without array indices among the keys, the keys are listed in the order
    they were added. *)
Lemma Object_keys_names {A : Type} (obj : list (string * A)) :
  Forall (fun kv => is_array_index (fst kv) = false) obj ->
  Object_keys obj = map fst obj.
Proof.
  intro H. unfold Object_keys.
  assert (H' : Forall (fun k => is_array_index k = false) (map fst obj))
    by (apply Forall_map; exact H).
  rewrite (index_keys_none _ H'). simpl. apply filter_all.
  eapply Forall_impl; [|exact H']. simpl. intros k ->. reflexivity.
Qed.

(** Properties that are added under names that are no array indices are
    listed after the keys there were. *)
Lemma Object_keys_app {A : Type} (obj added : list (string * A)) :
  Forall (fun kv => is_array_index (fst kv) = false) added ->
  Object_keys (obj ++ added) = (Object_keys obj ++ map fst added)%list.
Proof.
  intro H. unfold Object_keys.
  assert (H' : Forall (fun k => is_array_index k = false) (map fst added))
    by (apply Forall_map; exact H).
  rewrite map_app, (index_keys_app_names _ _ H'), filter_app, <- app_assoc.
  f_equal. f_equal. apply filter_all.
  eapply Forall_impl; [|exact H']. simpl. intros k ->. reflexivity.
Qed.

Lemma get_In {A : Type} (k : string) (l : list (string * A)) :
  get k l <> None <-> In k (map fst l).
Proof.
  induction l as [|[k0 v0] l IH]; simpl.
  - split; [intro H; apply H; reflexivity | intros []].
  - destruct (String.eqb_spec k0 k) as [-> | Hne].
    + split; [auto | discriminate].
    + rewrite IH. split; [auto | intros [E | H]; [contradiction | exact H]].
Qed.

(** C9 at an inherited name. [new File({path: 'out.csv', flushLines: 5,
    fields: {constructor: {quoted: true}}})] followed by [add({a: 'x'})]:
    the row has no key [constructor], and what is buffered under that column
    is not [undefined] but the function every object inherits under that
    name. *)
Theorem add_buffers_inherited_member :
  let row := [("a", VString "x")] in
  new_File LF (Some options_constructor_column)
    = inr (file_constructor_column, [])
  /\ get "constructor" row = None
  /\ inherited "constructor" = Some (native_function "Object")
  /\ add an_env (DObject row) file_constructor_column
     = {| final :=
            set_buffer [[native_function "Object"; VString "x"]]
              (set_fields [("constructor", {| quoted := true |});
                           ("a", {| quoted := true |})]
                          file_constructor_column);
          trace := []; result := inr tt |}
  /\ get_value "constructor" row <> VUndefined.
Proof.
  cbv zeta. repeat split. discriminate.
Qed.

(** ** The row-count threshold *)

Lemma pushed_keeps (data : jsdata) (f : File) :
  is_row data = true ->
  open (priv (pushed data f)) = open (priv f)
  /\ lastPath (priv (pushed data f)) = lastPath (priv f)
  /\ flushLines (this (pushed data f)) = flushLines (this f)
  /\ flushInterval (this (pushed data f)) = flushInterval (this f)
  /\ List.length (buffer (priv (pushed data f)))
       = S (List.length (buffer (priv f))).
Proof.
  intro Hr. destruct data; try discriminate Hr; unfold pushed; simpl;
    rewrite length_app; simpl; repeat split; lia.
Qed.

Lemma flush_if_due_waits (env : Env) (f : File) :
  (0 < flushLines (this f))%Z ->
  (Z.of_nat (List.length (buffer (priv f))) <= flushLines (this f))%Z ->
  flush_if_due env f = {| final := f; trace := []; result := inr tt |}.
Proof.
  intros Hpos Hle. unfold flush_if_due, bind, read. simpl.
  replace (flushLines (this f) <? Z.of_nat (List.length (buffer (priv f))))%Z
    with false by (symmetry; apply Z.ltb_ge; lia).
  replace (flushLines (this f) =? 0)%Z
    with false by (symmetry; apply Z.eqb_neq; lia).
  rewrite andb_false_r. reflexivity.
Qed.

Lemma flush_if_due_fires (env : Env) (f : File) :
  (0 < flushLines (this f))%Z ->
  (flushLines (this f) < Z.of_nat (List.length (buffer (priv f))))%Z ->
  flush_if_due env f = flush env f.
Proof.
  intros Hpos Hlt. rewrite <- (outcome_eta (flush env f)).
  unfold flush_if_due, bind, read. simpl.
  replace (0 <? flushLines (this f))%Z
    with true by (symmetry; apply Z.ltb_lt; lia).
  replace (flushLines (this f) <? Z.of_nat (List.length (buffer (priv f))))%Z
    with true by (symmetry; apply Z.ltb_lt; lia).
  reflexivity.
Qed.

Lemma add_all_app (calls calls' : list (Env * jsdata)) (f : File) :
  result (add_all calls f) = inr tt ->
  add_all (calls ++ calls') f =
    let o := add_all calls f in
    let o' := add_all calls' (final o) in
    {| final := final o'; trace := trace o ++ trace o'; result := result o' |}.
Proof.
  revert f. induction calls as [|[env data] rest IH]; intros f Hok; simpl.
  - rewrite outcome_eta. reflexivity.
  - simpl in Hok. unfold bind in *.
    destruct (result (add env data f)) as [e|[]] eqn:Er; simpl in *.
    + discriminate Hok.
    + rewrite (IH _ Hok). simpl. rewrite app_assoc. reflexivity.
Qed.

(** Below the threshold a run of [add] only buffers. *)
Lemma add_all_buffers (calls : list (Env * jsdata)) :
  forall f,
    open (priv f) = true ->
    (0 < flushLines (this f))%Z ->
    (Z.of_nat (List.length (buffer (priv f)) + List.length calls)
       <= flushLines (this f))%Z ->
    Forall (fun c => is_row (snd c) = true) calls ->
    add_all calls f =
      {| final := pushed_all (map snd calls) f; trace := []; result := inr tt |}.
Proof.
  induction calls as [|[env data] rest IH]; intros f Ho Hpos Hle Hrows; simpl.
  - reflexivity.
  - inversion Hrows as [|c cs Hr Hrs]; subst. simpl in Hr, Hle.
    destruct (pushed_keeps data f Hr) as [Ko [_ [Kl [_ Kb]]]].
    unfold bind. rewrite (add_row env data f Ho Hr).
    rewrite flush_if_due_waits by (rewrite ?Kl, ?Kb; lia).
    simpl. rewrite IH; try assumption.
    + reflexivity.
    + congruence.
    + rewrite Kl. exact Hpos.
    + rewrite Kl, Kb. lia.
Qed.

Lemma pushed_all_app (rows rows' : list jsdata) (f : File) :
  pushed_all (rows ++ rows') f = pushed_all rows' (pushed_all rows f).
Proof. unfold pushed_all. apply fold_left_app. Qed.

Lemma pushed_all_keeps (rows : list jsdata) :
  forall f,
    Forall (fun data => is_row data = true) rows ->
    open (priv (pushed_all rows f)) = open (priv f)
    /\ lastPath (priv (pushed_all rows f)) = lastPath (priv f)
    /\ flushLines (this (pushed_all rows f)) = flushLines (this f)
    /\ List.length (buffer (priv (pushed_all rows f)))
         = (List.length (buffer (priv f)) + List.length rows)%nat.
Proof.
  induction rows as [|data rest IH]; intros f Hrows; simpl.
  - repeat split. lia.
  - inversion Hrows as [|d ds Hr Hrs]; subst.
    destruct (pushed_keeps data f Hr) as [Ko [Kp [Kl [_ Kb]]]].
    destruct (IH (pushed data f) Hrs) as [Jo [Jp [Jl Jb]]].
    repeat split; try congruence. rewrite Jb, Kb. lia.
Qed.

Lemma map_from_Forall2 {A B : Type} (h : A -> exn + B) (l : list A) :
  forall index ys,
    map_from (fun x _ => h x) index l = inr ys ->
    Forall2 (fun x y => h x = inr y) l ys.
Proof.
  induction l as [|x rest IH]; intros index ys H; simpl in H.
  - injection H as <-. constructor.
  - destruct (h x) as [e|y] eqn:Ex; simpl in H; [discriminate|].
    destruct (map_from (fun x0 _ => h x0) (S index) rest) as [e|ys'] eqn:Er;
      simpl in H; [discriminate|].
    injection H as <-. constructor; [exact Ex | exact (IH _ _ Er)].
Qed.

(** The text of the rows is the lines of the buffered rows, one per row, in
    the order of the buffer. *)
Lemma _generateCsvData_lines (f : File) (text : string) :
  _generateCsvData f = inr text ->
  exists lines,
    Forall2 (fun row line => render_line f row = inr line) (buffer (priv f)) lines
    /\ text = join_strings EmptyString lines.
Proof.
  unfold _generateCsvData. intro H.
  destruct (map_from (fun lineData _ => render_line f lineData) 0 (buffer (priv f)))
    as [e|lines] eqn:El; simpl in H; [discriminate|].
  injection H as <-. exists lines. split; [|reflexivity].
  exact (map_from_Forall2 (render_line f) _ _ _ El).
Qed.

(** C2, as the code has it. With a threshold [N > 0], [N + 1] calls of [add]
    with arrays or objects on an open object with an empty buffer, whose
    [N + 1] rows render and whose write call the file system does not
    refuse: the first [N] calls only buffer and issue nothing; the last one
    flushes once, the text holds the lines of all [N + 1] rows after the
    header the flush decides on, and the buffer is empty afterwards. *)
Theorem flushLines_threshold (N : nat) (f : File)
  (calls : list (Env * jsdata)) (env : Env) (data : jsdata) (text : string) :
  (0 < N)%nat ->
  flushLines (this f) = Z.of_nat N ->
  open (priv f) = true ->
  buffer (priv f) = [] ->
  List.length calls = N ->
  Forall (fun c => is_row (snd c) = true) calls ->
  is_row data = true ->
  let g := pushed_all (map snd calls ++ [data]) f in
  _generateCsvData g = inr text ->
  fs_write_throws (_getPath env g) (encoding (this g)) = false ->
  let csv := (if emits_header env g then header_line g else EmptyString) ++ text in
  add_all calls f
    = {| final := pushed_all (map snd calls) f; trace := []; result := inr tt |}
  /\ List.length (buffer (priv g)) = S N
  /\ (exists lines,
        Forall2 (fun row line => render_line g row = inr line)
                (buffer (priv g)) lines
        /\ text = join_strings EmptyString lines)
  /\ add_all (calls ++ [(env, data)]) f
       = {| final := set_lastPath (Some (_getPath env g)) (set_buffer [] g);
            trace := [Emit_data (_getPath env g) csv; dispatch env g csv];
            result := inr tt |}
  /\ buffer (priv (final (add_all (calls ++ [(env, data)]) f))) = [].
Proof.
  intros HN Hfl Ho Hb Hlen Hrows Hr g Hd Hw csv.
  assert (Hbuf : add_all calls f
            = {| final := pushed_all (map snd calls) f; trace := [];
                 result := inr tt |}).
  { apply add_all_buffers; try assumption.
    - lia.
    - rewrite Hb, Hfl, Hlen. simpl. lia. }
  assert (Hrows' : Forall (fun d => is_row d = true) (map snd calls)).
  { apply Forall_map. exact Hrows. }
  destruct (pushed_all_keeps (map snd calls) f Hrows') as [Ko [_ [Kl Kb]]].
  rewrite Hb, length_map, Hlen in Kb. simpl in Kb.
  set (f' := pushed_all (map snd calls) f) in *.
  assert (Eg : g = pushed data f').
  { subst g f'. rewrite pushed_all_app. reflexivity. }
  destruct (pushed_keeps data f' Hr) as [Jo [_ [Jl [_ Jb]]]].
  rewrite <- Eg in Jo, Jl, Jb.
  assert (Hlg : List.length (buffer (priv g)) = S N) by congruence.
  assert (Hne : buffer (priv g) <> []).
  { intro E. rewrite E in Hlg. discriminate Hlg. }
  assert (Hog : open (priv g) = true) by congruence.
  assert (Hall : add_all (calls ++ [(env, data)]) f
            = {| final := set_lastPath (Some (_getPath env g)) (set_buffer [] g);
                 trace := [Emit_data (_getPath env g) csv; dispatch env g csv];
                 result := inr tt |}).
  { rewrite add_all_app by (rewrite Hbuf; reflexivity).
    rewrite Hbuf. simpl. unfold bind.
    rewrite (add_row env data f') by congruence.
    rewrite <- Eg.
    rewrite flush_if_due_fires by (rewrite ?Jl, ?Kl, ?Hfl, ?Hlg; lia).
    rewrite (flush_writes env g text Hog Hne Hd Hw). reflexivity. }
  split; [exact Hbuf|]. split; [exact Hlg|].
  split; [exact (_generateCsvData_lines g text Hd)|].
  split; [exact Hall|]. rewrite Hall. reflexivity.
Qed.

(** ** The life cycle *)

Lemma complete_closed (env : Env) (f : File) :
  open (priv f) = false ->
  complete env f = {| final := f; trace := []; result := inl file_not_open |}.
Proof.
  intro Hc. unfold complete, bind, _requireOpen, read. simpl.
  rewrite Hc. reflexivity.
Qed.

Lemma set_timer_null_id (f : File) :
  timerFlushInterval (priv f) = TimerNull ->
  set_timerFlushInterval TimerNull f = f.
Proof.
  destruct f as [p [lp b t o]]. simpl. intros ->. reflexivity.
Qed.

Lemma complete_open (env : Env) (f : File) :
  open (priv f) = true ->
  complete env f =
    let f0 := set_timerFlushInterval TimerNull f in
    let cleared :=
      if timer_is_null (timerFlushInterval (priv f)) then []
      else [ClearInterval (timerFlushInterval (priv f))] in
    let o := flush env f0 in
    match result o with
    | inl e => {| final := final o; trace := cleared ++ trace o; result := inl e |}
    | inr _ => {| final := set_open false (final o);
                  trace := cleared ++ trace o; result := inr tt |}
    end.
Proof.
  intro Ho. unfold complete, bind, _requireOpen, read. simpl.
  rewrite Ho. simpl.
  destruct (timerFlushInterval (priv f)) eqn:Et; simpl.
  - destruct (result (flush env (set_timerFlushInterval TimerNull f))) as [e|[]];
      simpl; rewrite ?app_nil_r; reflexivity.
  - destruct (result (flush env (set_timerFlushInterval TimerNull f))) as [e|[]];
      simpl; rewrite ?app_nil_r; reflexivity.
  - rewrite (set_timer_null_id f Et).
    destruct (result (flush env f)) as [e|[]];
      simpl; rewrite ?app_nil_r; reflexivity.
Qed.

(** C8, as the code has it. On a closed object [add], [flush] and [complete]
    throw [file_not_open] and change nothing, so a closed object stays
    closed.  On an open object [complete] sets the timer to [null], after
    cancelling what was there unless that was [null] already, and then
    makes the last flush: what [complete] issues is that cancelling followed
    by what the flush issues.  When the flush returns the object is the one
    the flush left, closed, with an empty buffer; when it throws [complete]
    throws the same and the object is the one the flush left, still open. *)
Theorem lifecycle (env : Env) (f : File) :
  (open (priv f) = false ->
   (forall data,
       add env data f
         = {| final := f; trace := []; result := inl file_not_open |})
   /\ flush env f = {| final := f; trace := []; result := inl file_not_open |}
   /\ complete env f
        = {| final := f; trace := []; result := inl file_not_open |})
  /\ (open (priv f) = true ->
      let f0 := set_timerFlushInterval TimerNull f in
      let cleared :=
        match timerFlushInterval (priv f) with
        | TimerNull => []
        | t => [ClearInterval t]
        end in
      let o := complete env f in
      trace o = (cleared ++ trace (flush env f0))%list
      /\ result o = result (flush env f0)
      /\ timerFlushInterval (priv (final o)) = TimerNull
      /\ (result (flush env f0) = inr tt ->
          final o = set_open false (final (flush env f0))
          /\ open (priv (final o)) = false
          /\ buffer (priv (final o)) = [])
      /\ (forall e, result (flush env f0) = inl e ->
          final o = final (flush env f0)
          /\ open (priv (final o)) = true)).
Proof.
  split.
  - intro Hc. repeat split.
    + intro data. apply add_closed. exact Hc.
    + apply flush_closed. exact Hc.
    + apply complete_closed. exact Hc.
  - intros Ho f0 cleared o. subst o. rewrite (complete_open env f Ho). fold f0.
    assert (Ec : (if timer_is_null (timerFlushInterval (priv f)) then []
                  else [ClearInterval (timerFlushInterval (priv f))]) = cleared)
      by (subst cleared; destruct (timerFlushInterval (priv f)); reflexivity).
    rewrite Ec. clear Ec. cbv zeta.
    assert (Ho0 : open (priv f0) = true) by exact Ho.
    assert (Hfin : timerFlushInterval (priv (final (flush env f0))) = TimerNull
                   /\ open (priv (final (flush env f0))) = true
                   /\ (result (flush env f0) = inr tt ->
                       buffer (priv (final (flush env f0))) = [])).
    { split_flush env f0; rewrite Hrun; simpl; repeat split; auto;
        try discriminate; congruence. }
    destruct Hfin as [Ht [Hop Hbuf]].
    destruct (result (flush env f0)) as [e|[]] eqn:Er; simpl;
      repeat match goal with |- _ /\ _ => split end;
      auto; try discriminate.
Qed.

(** ** Three rows with [flushLines = 2] *)

(** C3, as the code has it. [new File({path: 'out.csv', flushLines: 2})]
    followed by [add({Name: 'A'})], [add({Name: 'B'})] and
    [add({Name: 'C'})]: the first two calls issue nothing, the third flushes
    once, the text is the quoted header line [Name] followed by the lines of
    A, B and C, it overwrites the file, and the buffer is empty afterwards. *)
Theorem three_rows_flushLines_2 (os_EOL : string) (env1 env2 env3 : Env) :
  let f0 := fresh (public_with os_EOL 2 double_quote backslash) in
  let row name := DObject [("Name", VString name)] in
  let cell name := double_quote ++ name ++ double_quote ++ os_EOL in
  let text := cell "Name" ++ cell "A" ++ cell "B" ++ cell "C" in
  let two := add_all [(env1, row "A"); (env2, row "B")] f0 in
  let three := add_all [(env1, row "A"); (env2, row "B"); (env3, row "C")] f0 in
  new_File os_EOL (Some (options_with (Some 2%Z) None None [])) = inr (f0, [])
  /\ trace two = [] /\ result two = inr tt
  /\ buffer (priv (final two)) = [[VString "A"]; [VString "B"]]
  /\ trace three
       = [Emit_data "out.csv" text; WriteFile "out.csv" text "utf8"]
  /\ result three = inr tt
  /\ buffer (priv (final three)) = [].
Proof.
  cbv zeta. repeat split; reflexivity.
Qed.

(** The scenario of C3 on a system whose line end is a line feed: after the
    third call the buffer does not hold the row of C, and the text that was
    flushed is not the header with the lines of A and B only. *)
Lemma three_rows_flush_takes_all :
  let f0 := fresh (public_with LF 2 double_quote backslash) in
  let row name := DObject [("Name", VString name)] in
  let cell name := double_quote ++ name ++ double_quote ++ LF in
  let three :=
    add_all [(an_env, row "A"); (an_env, row "B"); (an_env, row "C")] f0 in
  buffer (priv (final three)) = []
  /\ buffer (priv (final three)) <> [[VString "C"]]
  /\ ~ In (Emit_data "out.csv" (cell "Name" ++ cell "A" ++ cell "B"))
          (trace three).
Proof.
  cbv zeta. split; [reflexivity|]. split.
  - vm_compute. discriminate.
  - vm_compute. intros [H|[H|[]]]; discriminate H.
Qed.

(** ** The argument of [add] *)

(** C5 at [null]. [add(null)] on a new object passes the test on [typeof]
    and throws a [TypeError] from [Object.keys], not ['invalid_data']; nothing
    is buffered. *)
Theorem add_null_throws_TypeError :
  let f0 := fresh (public_with LF 0 double_quote backslash) in
  typeof DNull = TyObject
  /\ is_row DNull = false
  /\ add an_env DNull f0 = {| final := f0; trace := []; result := inl TypeError |}
  /\ result (add an_env DNull f0) <> inl invalid_data.
Proof.
  cbv zeta. repeat split. discriminate.
Qed.

(** ** The separator *)

(** [{path: 'out.csv', delimiter: ';'}]: the key is not one [_getOptions]
    reads, the separator is the default comma, and the header and the line of
    [{a: '1', b: '2'}] are written with it. *)
Lemma delimiter_key_is_not_read :
  let f0 := fresh (public_with LF 0 double_quote backslash) in
  let q s := double_quote ++ s ++ double_quote in
  let text := q "a" ++ "," ++ q "b" ++ LF ++ q "1" ++ "," ++ q "2" ++ LF in
  new_File LF (Some (options_with None None None [("delimiter", VString ";")]))
    = inr (f0, [])
  /\ delimeter (this f0) <> ";"
  /\ trace (add an_env (DObject [("a", VString "1"); ("b", VString "2")]) f0)
       = [Emit_data "out.csv" text; WriteFile "out.csv" text "utf8"].
Proof.
  cbv zeta. repeat split. discriminate.
Qed.

Lemma map_from_length {A B : Type} (fn : A -> nat -> exn + B) (l : list A) :
  forall index ys,
    map_from fn index l = inr ys -> List.length ys = List.length l.
Proof.
  induction l as [|x rest IH]; intros index ys H; simpl in H.
  - injection H as <-. reflexivity.
  - destruct (fn x index) as [e|y]; simpl in H; [discriminate|].
    destruct (map_from fn (S index) rest) as [e|ys'] eqn:Er; simpl in H;
      [discriminate|].
    injection H as <-. simpl. f_equal. exact (IH _ _ Er).
Qed.

(** A rendered line is its cells joined by [this.delimeter], then
    [this.eol]; there are as many cells as the longer of the row and the
    schema. *)
Lemma render_line_cells (f : File) (row : list value) (line : string) :
  render_line f row = inr line ->
  exists cells,
    List.length cells = Nat.max (List.length row) (List.length (fields (this f)))
    /\ line = join_strings (delimeter (this f)) cells ++ eol (this f).
Proof.
  unfold render_line, Array_join. intro H.
  destruct (map_from (render_cell f) 0 row) as [e|line0] eqn:E0; simpl in H;
    [discriminate|].
  match type of H with
  | sum_bind (sum_bind (map_from ?fn 0 ?l) _) _ = _ =>
      destruct (map_from fn 0 l) as [e|texts] eqn:E1; simpl in H; [discriminate|]
  end.
  injection H as <-. exists texts. split; [|reflexivity].
  rewrite (map_from_length _ _ _ _ E1), length_app, repeat_length.
  rewrite (map_from_length _ _ _ _ E0), Object_keys_length. lia.
Qed.

Lemma string_app_nil_r (s : string) : s ++ EmptyString = s.
Proof. induction s as [|a s IH]; simpl; congruence. Qed.

Lemma string_app_assoc (a b c : string) : (a ++ b) ++ c = a ++ b ++ c.
Proof. induction a as [|x a IH]; simpl; congruence. Qed.

Lemma string_app_length (a b : string) :
  String.length (a ++ b) = (String.length a + String.length b)%nat.
Proof. induction a as [|x a IH]; simpl; congruence. Qed.

Lemma join_strings_cons (sep c : string) (cs : list string) :
  join_strings sep (c :: cs)
    = c ++ String.concat EmptyString (map (fun x => sep ++ x) cs).
Proof.
  revert c. induction cs as [|d rest IH]; intro c.
  - simpl. rewrite string_app_nil_r. reflexivity.
  - change (join_strings sep (c :: d :: rest))
      with (c ++ sep ++ join_strings sep (d :: rest)).
    rewrite IH. destruct rest as [|d' rest'].
    + simpl. rewrite string_app_nil_r. reflexivity.
    + change (String.concat EmptyString (map (fun x => sep ++ x) (d :: d' :: rest')))
        with ((sep ++ d) ++ EmptyString
              ++ String.concat EmptyString (map (fun x => sep ++ x) (d' :: rest'))).
      rewrite string_app_assoc. reflexivity.
Qed.

(** What [add] leaves of the properties on [this]: all but the schema. *)
Lemma set_fields_keeps (fs : list (string * field)) (f : File) :
  delimeter (this (set_fields fs f)) = delimeter (this f).
Proof. reflexivity. Qed.

Lemma flush_if_due_this (env : Env) (f : File) :
  this (final (flush_if_due env f)) = this f.
Proof.
  unfold flush_if_due, bind, read. simpl.
  destruct ((0 <? flushLines (this f))%Z
            && (flushLines (this f) <? Z.of_nat (List.length (buffer (priv f))))%Z);
    simpl; [apply flush_keeps_this|].
  destruct ((flushLines (this f) =? 0)%Z && (flushInterval (this f) =? 0)%Z);
    simpl; [apply flush_keeps_this | reflexivity].
Qed.

Lemma add_keeps_delimeter (env : Env) (data : jsdata) (f : File) :
  delimeter (this (final (add env data f))) = delimeter (this f).
Proof.
  destruct (open (priv f)) eqn:Ho; [|rewrite add_closed by exact Ho; reflexivity].
  destruct data;
    try (rewrite add_not_object by (try exact Ho; simpl; discriminate); reflexivity).
  - rewrite add_null by exact Ho. reflexivity.
  - rewrite (add_row env (DArray items) f Ho eq_refl), flush_if_due_this.
    reflexivity.
  - rewrite (add_row env (DObject props) f Ho eq_refl), flush_if_due_this.
    reflexivity.
Qed.

Lemma complete_keeps_this (env : Env) (f : File) :
  this (final (complete env f)) = this f.
Proof.
  destruct (open (priv f)) eqn:Ho; [|rewrite complete_closed by exact Ho; reflexivity].
  rewrite (complete_open env f Ho). cbv zeta.
  pose proof (flush_keeps_this env (set_timerFlushInterval TimerNull f)) as Ht.
  simpl in Ht.
  destruct (result (flush env (set_timerFlushInterval TimerNull f))) as [e|u];
    simpl; exact Ht.
Qed.

Lemma _getOne_object {A : Type} (o : Options) (name : Options -> option A)
  (defaultValue : A) :
  _getOne (Some o) name defaultValue
  = inr (match name o with Some v => v | None => defaultValue end).
Proof. unfold _getOne. destruct (name o); reflexivity. Qed.

Lemma _getOne_undefined {A : Type} (name : Options -> option A)
  (defaultValue : A) :
  _getOne None name defaultValue = inr defaultValue.
Proof. reflexivity. Qed.

(** What [_getOptions] makes of an object: every key it has, the default
    for every key it lacks, and no object without a path. *)
Lemma _getOptions_object (os_EOL : string) (o : Options) :
  _getOptions os_EOL (Some o)
  = match opt_path o with
    | None => inl missing_option_path
    | Some p =>
        let pick {A : Type} (given : option A) (defaultValue : A) :=
          match given with Some v => v | None => defaultValue end in
        inr {| encoding := pick (opt_encoding o) "utf8";
               delimeter := pick (opt_delimeter o) ",";
               quote := pick (opt_quote o) double_quote;
               escape := pick (opt_escape o) backslash;
               nullValue := pick (opt_nullValue o) "NULL";
               eol := pick (opt_eol o) os_EOL;
               headers := pick (opt_headers o) true;
               overwrite := pick (opt_overwrite o) true;
               fields := pick (opt_fields o) [];
               flushInterval := pick (opt_flushInterval o) 0%Z;
               flushLines := pick (opt_flushLines o) 0%Z;
               path := p |}
    end.
Proof.
  unfold _getOptions. rewrite !_getOne_object. simpl.
  destruct (opt_path o); reflexivity.
Qed.

(** C6, as the code has it. The separator is the value of the key
    [delimeter], so spelled, and a comma when that key is not given.  No
    operation changes it, and the header line and every line of a row are
    their cells joined by it: it stands before every cell but the first. *)
Theorem delimeter_option (os_EOL : string) (o : Options) (p : Public) :
  _getOptions os_EOL (Some o) = inr p ->
  (forall d, opt_delimeter o = Some d -> delimeter p = d)
  /\ (opt_delimeter o = None -> delimeter p = ",")
  /\ (forall env data f,
        delimeter (this f) = delimeter p ->
        delimeter (this (final (add env data f))) = delimeter p
        /\ delimeter (this (final (flush env f))) = delimeter p
        /\ delimeter (this (final (complete env f))) = delimeter p)
  /\ (forall f,
        delimeter (this f) = delimeter p ->
        (exists cells,
            List.length cells = List.length (fields (this f))
            /\ _generateCsvHeaders f
                 = inr (join_strings (delimeter p) cells ++ eol (this f)))
        /\ (forall row line,
              render_line f row = inr line ->
              exists cells,
                List.length cells
                  = Nat.max (List.length row) (List.length (fields (this f)))
                /\ line = join_strings (delimeter p) cells ++ eol (this f)))
  /\ (forall sep c cs,
        join_strings sep (c :: cs)
          = c ++ String.concat EmptyString (map (fun x => sep ++ x) cs)).
Proof.
  intro H. rewrite _getOptions_object in H.
  destruct (opt_path o) as [pth|]; simpl in H; [|discriminate].
  injection H as <-. simpl.
  split; [intros d Hd; rewrite Hd; reflexivity|].
  split; [intros Hd; rewrite Hd; reflexivity|].
  split.
  - intros env data f Hf. rewrite add_keeps_delimeter, complete_keeps_this.
    rewrite flush_keeps_this. auto.
  - split; [|exact join_strings_cons].
    intros f Hf. rewrite <- Hf. split.
    + exists (map (enquote_text f) (Object_keys (fields (this f)))). split.
      * rewrite length_map, Object_keys_length. reflexivity.
      * apply _generateCsvHeaders_total.
    + intros row line Hl. exact (render_line_cells f row line Hl).
Qed.

(** ** Quoting *)

Section LeftmostOccurrence.

Variable pat : string.

Lemma prefix_split (s : string) :
  String.prefix pat s = true ->
  s = pat ++ string_drop (String.length pat) s.
Proof.
  revert s. induction pat as [|a pat' IH]; intros [|b s] H; simpl in *;
    try reflexivity; try discriminate.
  destruct (ascii_dec a b) as [->|]; [|discriminate].
  f_equal. exact (IH s H).
Qed.

Lemma prefix_app (rest : string) : String.prefix pat (pat ++ rest) = true.
Proof.
  induction pat as [|a pat' IH]; simpl.
  - destruct rest; reflexivity.
  - destruct (ascii_dec a a); [exact IH | congruence].
Qed.

Lemma split_first_eq (s : string) :
  split_first pat s =
    if String.prefix pat s
    then Some (EmptyString, string_drop (String.length pat) s)
    else match s with
         | EmptyString => None
         | String c s' =>
             match split_first pat s' with
             | Some (before, after) => Some (String c before, after)
             | None => None
             end
         end.
Proof. destruct s; reflexivity. Qed.

(** [split_first] finds an occurrence, the leftmost one, and finds one
    whenever there is one. *)
Lemma split_first_Some (s before after : string) :
  split_first pat s = Some (before, after) ->
  s = before ++ pat ++ after
  /\ (forall b a, s = b ++ pat ++ a ->
        (String.length before <= String.length b)%nat).
Proof.
  revert before after. induction s as [|c s IH]; intros before after H.
  - rewrite split_first_eq in H.
    destruct (String.prefix pat EmptyString) eqn:Ep; [|discriminate].
    injection H as <- <-. split; [exact (prefix_split _ Ep)|].
    intros; simpl; lia.
  - rewrite split_first_eq in H.
    destruct (String.prefix pat (String c s)) eqn:Ep.
    + injection H as <- <-. split; [exact (prefix_split _ Ep)|].
      intros; simpl; lia.
    + destruct (split_first pat s) as [[b0 a0]|] eqn:Es; [|discriminate].
      injection H as <- <-. destruct (IH b0 a0 eq_refl) as [Hs Hmin].
      split; [simpl; f_equal; exact Hs|].
      intros b a Hb. destruct b as [|c' b].
      * simpl in Hb. rewrite Hb, prefix_app in Ep. discriminate.
      * simpl in Hb. injection Hb as _ Hb. simpl.
        apply le_n_S. exact (Hmin b a Hb).
Qed.

Lemma split_first_None (s : string) :
  split_first pat s = None ->
  forall b a, s <> b ++ pat ++ a.
Proof.
  induction s as [|c s IH]; intros H b a Hb.
  - rewrite split_first_eq in H.
    destruct (String.prefix pat EmptyString) eqn:Ep; [discriminate|].
    destruct b; simpl in Hb; [|discriminate].
    rewrite Hb, prefix_app in Ep. discriminate.
  - rewrite split_first_eq in H.
    destruct (String.prefix pat (String c s)) eqn:Ep; [discriminate|].
    destruct (split_first pat s) as [[b0 a0]|] eqn:Es; [discriminate|].
    destruct b as [|c' b]; simpl in Hb.
    + rewrite Hb, prefix_app in Ep. discriminate.
    + injection Hb as _ Hb. exact (IH eq_refl b a Hb).
Qed.

End LeftmostOccurrence.

Lemma GetSubstitution_plain (matched before after replacement : string) :
  dollar_free replacement = true ->
  GetSubstitution matched before after replacement = replacement.
Proof.
  induction replacement as [|c r IH]; intro H; simpl in H.
  - reflexivity.
  - apply andb_prop in H. destruct H as [Hc Hr].
    specialize (IH Hr).
    destruct c as [[] [] [] [] [] [] [] []];
      try discriminate Hc; simpl; rewrite IH; reflexivity.
Qed.

(** X1. Where the replacement text [escape + quote] holds no dollar, a quoted
    cell is the text of the value between two quotes: as it is when the quote
    does not occur in it, and otherwise with [escape] put before the leftmost
    occurrence of the quote and nothing else changed. *)
Lemma _enquote_first_quote_only (f : File) (v : value) (s : string) :
  toString_member v = Some s ->
  dollar_free (escape (this f) ++ quote (this f)) = true ->
  ((forall b a, s <> b ++ quote (this f) ++ a)
   /\ _enquote f v = inr (quote (this f) ++ s ++ quote (this f)))
  \/ (exists before after,
        s = before ++ quote (this f) ++ after
        /\ (forall b a, s = b ++ quote (this f) ++ a ->
              (String.length before <= String.length b)%nat)
        /\ _enquote f v =
             inr (quote (this f)
                  ++ (before ++ (escape (this f) ++ quote (this f)) ++ after)
                  ++ quote (this f))).
Proof.
  intros Hs Hfree.
  assert (He : _enquote f v = inr (enquote_text f s)).
  { destruct v as [| |s'|[s'|]|[s'|] t]; simpl in Hs; try discriminate;
      injection Hs as ->; reflexivity. }
  rewrite He. unfold enquote_text, String_replace.
  destruct (split_first (quote (this f)) s) as [[before after]|] eqn:Es.
  - right. exists before, after.
    destruct (split_first_Some _ _ _ _ Es) as [Hsplit Hmin].
    rewrite GetSubstitution_plain by exact Hfree. auto.
  - left. split; [exact (split_first_None _ _ Es) | reflexivity].
Qed.

(** C4 at a dollar. With [quote] and [escape] both a dollar, the cell of
    ['a$b'] is [$a$b$]: [replace] reads the replacement text [$$] as one
    dollar, so the quote inside the value is left as it was instead of being
    written as [escape] followed by [quote]. *)
Theorem _enquote_dollar_pattern :
  new_File LF (Some (options_with None (Some "$") (Some "$") []))
    = inr (file_dollar, [])
  /\ fields (this (final (_buildLinedata (DObject [("v", VString "a$b")])
                                         file_dollar)))
       = [("v", {| quoted := true |})]
  /\ _enquote file_dollar (VString "a$b") = inr "$a$b$"
  /\ _enquote file_dollar (VString "a$b")
       <> inr ("$" ++ "a" ++ ("$" ++ "$") ++ "b" ++ "$")
  /\ trace (add an_env (DObject [("v", VString "a$b")]) file_dollar)
       = [Emit_data "out.csv" ("$v$" ++ LF ++ "$a$b$" ++ LF);
          WriteFile "out.csv" ("$v$" ++ LF ++ "$a$b$" ++ LF) "utf8"].
Proof.
  repeat split. discriminate.
Qed.

(** ** The exceptions of the operations *)

Lemma map_from_throws {A B : Type} (fn : A -> nat -> exn + B) (l : list A) :
  forall index e,
    map_from fn index l = inl e ->
    exists x i, In x l /\ fn x i = inl e.
Proof.
  induction l as [|x rest IH]; intros index e H; simpl in H.
  - discriminate.
  - destruct (fn x index) as [e0|y] eqn:Ex; simpl in H.
    + injection H as <-. exists x, index. split; [left; reflexivity | exact Ex].
    + destruct (map_from fn (S index) rest) as [e1|ys] eqn:Er; simpl in H;
        [|discriminate].
      injection H as <-. destruct (IH _ _ Er) as [x' [i [Hin Hx]]].
      exists x', i. split; [right; exact Hin | exact Hx].
Qed.

Lemma _enquote_throws (f : File) (v : value) (e : exn) :
  _enquote f v = inl e -> e = TypeError \/ e = not_a_string.
Proof.
  destruct v as [| |s|[s|]|[s|] t]; simpl; intro H; try discriminate;
    injection H as <-; auto.
Qed.

Lemma render_line_throws (f : File) (row : list value) (e : exn) :
  render_line f row = inl e -> e = TypeError \/ e = not_a_string.
Proof.
  unfold render_line, Array_join. intro H.
  destruct (map_from (render_cell f) 0 row) as [e0|line0] eqn:E0; simpl in H.
  - injection H as <-. destruct (map_from_throws _ _ _ _ E0) as [v [i [_ Hv]]].
    unfold render_cell in Hv.
    destruct v as [| |s|str|str conv]; try discriminate Hv;
      destruct (get (nth i (Object_keys (fields (this f))) "undefined")
                    (fields (this f))) as [fc|];
      try (injection Hv as <-; auto; fail);
      destruct (quoted fc); try discriminate Hv;
      match type of Hv with
      | sum_bind (_enquote f ?v) _ = _ =>
          destruct (_enquote f v) as [e1|t] eqn:Eq; simpl in Hv;
          [injection Hv as <-; exact (_enquote_throws _ _ _ Eq) | discriminate Hv]
      end.
  - match type of H with
    | sum_bind (sum_bind (map_from ?fn 0 ?l) _) _ = _ =>
        destruct (map_from fn 0 l) as [e1|texts] eqn:E1; simpl in H;
        [|discriminate]
    end.
    injection H as <-. destruct (map_from_throws _ _ _ _ E1) as [v [i [_ Hv]]].
    destruct v as [| |s|[s|]|m [s|]]; simpl in Hv; try discriminate Hv;
      injection Hv as <-; auto.
Qed.

Lemma _generateCsvData_throws (f : File) (e : exn) :
  _generateCsvData f = inl e -> e = TypeError \/ e = not_a_string.
Proof.
  unfold _generateCsvData. intro H.
  destruct (map_from (fun lineData _ => render_line f lineData) 0 (buffer (priv f)))
    as [e0|lines] eqn:El; simpl in H; [|discriminate].
  injection H as <-. destruct (map_from_throws _ _ _ _ El) as [row [i [_ Hr]]].
  exact (render_line_throws f row e0 Hr).
Qed.

Lemma flush_if_due_result (env : Env) (f : File) :
  open (priv f) = true ->
  result (flush_if_due env f) <> inl invalid_data.
Proof.
  intro Ho.
  assert (Hfl : result (flush env f) <> inl invalid_data).
  { split_flush env f; try congruence; rewrite Hrun; simpl; try discriminate.
    destruct (_generateCsvData_throws f _ Hdata) as [-> | ->]; discriminate. }
  unfold flush_if_due, bind, read. simpl.
  destruct ((0 <? flushLines (this f))%Z
            && (flushLines (this f) <? Z.of_nat (List.length (buffer (priv f))))%Z);
    simpl; [exact Hfl|].
  destruct ((flushLines (this f) =? 0)%Z && (flushInterval (this f) =? 0)%Z);
    simpl; [exact Hfl | discriminate].
Qed.

(** X2. On an open object [add] throws ['invalid_data'] exactly when [typeof] of
    its argument is not ['object']: for [undefined], booleans, numbers,
    strings and functions, and neither for arrays and objects nor for
    [null]. *)
Lemma add_invalid_data_iff (env : Env) (data : jsdata) (f : File) :
  open (priv f) = true ->
  (result (add env data f) = inl invalid_data <-> typeof data <> TyObject).
Proof.
  intro Ho. split.
  - intros H Ht. destruct data; simpl in Ht; try discriminate Ht.
    + rewrite (add_null env f Ho) in H. discriminate H.
    + rewrite (add_row env (DArray items) f Ho eq_refl) in H.
      revert H. apply flush_if_due_result.
      destruct (pushed_keeps (DArray items) f eq_refl) as [K _]. congruence.
    + rewrite (add_row env (DObject props) f Ho eq_refl) in H.
      revert H. apply flush_if_due_result.
      destruct (pushed_keeps (DObject props) f eq_refl) as [K _]. congruence.
  - intro Ht. rewrite (add_not_object env data f Ho Ht). reflexivity.
Qed.

(** ** Rows shorter and longer than the schema *)

Lemma map_from_nth {A B : Type} (fn : A -> nat -> exn + B) (l : list A) :
  forall index ys,
    map_from fn index l = inr ys ->
    forall i x, nth_error l i = Some x ->
    exists y, fn x (index + i)%nat = inr y.
Proof.
  induction l as [|x0 rest IH]; intros index ys H i x Hx; simpl in H.
  - destruct i; discriminate Hx.
  - destruct (fn x0 index) as [e|y0] eqn:E0; simpl in H; [discriminate|].
    destruct (map_from fn (S index) rest) as [e|ys'] eqn:Er; simpl in H;
      [discriminate|].
    destruct i as [|i]; simpl in Hx.
    + injection Hx as <-. exists y0. rewrite Nat.add_0_r. exact E0.
    + destruct (IH _ _ Er i x Hx) as [y Hy]. exists y.
      rewrite Nat.add_succ_r. exact Hy.
Qed.

Lemma Forall2_repeat_l {A B : Type} (R : A -> B -> Prop) (a : A) (b : B) :
  (forall y, R a y -> y = b) ->
  forall n ys, Forall2 R (repeat a n) ys -> ys = repeat b n.
Proof.
  intros HR n. induction n as [|n IH]; intros ys H; simpl in *.
  - inversion H. reflexivity.
  - inversion H as [|x y xs ys' Hxy Hrest]; subst.
    rewrite (HR y Hxy), (IH ys' Hrest). reflexivity.
Qed.

(** X4. A row shorter than the schema: its line is the cells of its values
    followed by [nullValue] once for every column it lacks. *)
Lemma render_line_pads (f : File) (row : list value) (line : string) :
  render_line f row = inr line ->
  exists cells,
    List.length cells = List.length row
    /\ line =
         join_strings (delimeter (this f))
           (cells ++ repeat (nullValue (this f))
                       (List.length (fields (this f)) - List.length row))
         ++ eol (this f).
Proof.
  unfold render_line, Array_join. intro H.
  destruct (map_from (render_cell f) 0 row) as [e|line0] eqn:E0; simpl in H;
    [discriminate|].
  match type of H with
  | sum_bind (sum_bind (map_from ?fn 0 ?l) _) _ = _ =>
      destruct (map_from fn 0 l) as [e|texts] eqn:E1; simpl in H; [discriminate|]
  end.
  injection H as <-.
  pose proof (map_from_length _ _ _ _ E0) as Hlen.
  apply (map_from_Forall2 join_element) in E1.
  apply Forall2_app_inv_l in E1.
  destruct E1 as [cells [pad [Hcells [Hpad ->]]]].
  exists cells. split.
  - rewrite <- Hlen. symmetry. exact (Forall2_length Hcells).
  - rewrite Object_keys_length, Hlen in Hpad.
    assert (Hnull : forall y,
               join_element (VString (nullValue (this f))) = inr y ->
               y = nullValue (this f))
      by (intros y Hy; simpl in Hy; congruence).
    rewrite (Forall2_repeat_l _ _ _ Hnull _ _ Hpad). reflexivity.
Qed.

(** X5. A row longer than the schema: a value that is neither [undefined] nor
    [null] at a position past the last column finds no field, and reading
    [quoted] of it throws, unless a column happens to be named "undefined".
    A flush of a buffer that holds such a row throws and hands out
    nothing. *)
Lemma flush_excess_value_throws (env : Env) (f : File)
  (row : list value) (i : nat) (v : value) :
  open (priv f) = true ->
  In row (buffer (priv f)) ->
  nth_error row i = Some v ->
  (List.length (fields (this f)) <= i)%nat ->
  v <> VUndefined -> v <> VNull ->
  get "undefined" (fields (this f)) = None ->
  exists e,
    (e = TypeError \/ e = not_a_string)
    /\ flush env f = {| final := f; trace := []; result := inl e |}.
Proof.
  intros Ho Hin Hv Hi Hu Hn Hg.
  assert (Hcell : render_cell f v i = inl TypeError).
  { unfold render_cell. rewrite nth_overflow
      by (rewrite Object_keys_length; exact Hi).
    rewrite Hg. destruct v; try reflexivity; congruence. }
  assert (Hline : exists e, render_line f row = inl e).
  { unfold render_line.
    destruct (map_from (render_cell f) 0 row) as [e|line0] eqn:E0; simpl.
    - exists e. reflexivity.
    - destruct (map_from_nth _ _ _ _ E0 i v Hv) as [y Hy]. simpl in Hy.
      congruence. }
  destruct Hline as [e0 He0].
  destruct (_generateCsvData f) as [e|text] eqn:Hd.
  - exists e. split; [exact (_generateCsvData_throws f e Hd)|].
    apply flush_throws; try assumption.
    intro Hb. rewrite Hb in Hin. exact Hin.
  - destruct (_generateCsvData_lines f text Hd) as [lines [HF _]].
    exfalso. clear - HF Hin He0.
    induction HF as [|r l rs ls Hr _ IH]; simpl in Hin; [exact Hin|].
    destruct Hin as [-> | Hin]; [congruence | exact (IH Hin)].
Qed.

(** X3. Without thresholds every [add] of a row that renders flushes at once
    when the file system does not refuse the write call: one flush, of the
    one row it has just pushed, and an empty buffer afterwards. *)
Lemma add_flushes_at_once (env : Env) (f : File) (data : jsdata) (text : string) :
  open (priv f) = true ->
  buffer (priv f) = [] ->
  flushLines (this f) = 0%Z ->
  flushInterval (this f) = 0%Z ->
  is_row data = true ->
  let g := pushed data f in
  _generateCsvData g = inr text ->
  fs_write_throws (_getPath env g) (encoding (this g)) = false ->
  let csv := (if emits_header env g then header_line g else EmptyString) ++ text in
  List.length (buffer (priv g)) = 1%nat
  /\ add env data f
       = {| final := set_lastPath (Some (_getPath env g)) (set_buffer [] g);
            trace := [Emit_data (_getPath env g) csv; dispatch env g csv];
            result := inr tt |}.
Proof.
  intros Ho Hb Hl Hi Hr g Hd Hw csv.
  destruct (pushed_keeps data f Hr) as [Ko [_ [Kl [Ki Kb]]]].
  fold g in Ko, Kl, Ki, Kb. rewrite Hb in Kb. simpl in Kb.
  split; [exact Kb|].
  rewrite (add_row env data f Ho Hr). fold g.
  assert (Hne : buffer (priv g) <> []).
  { intro E. rewrite E in Kb. discriminate Kb. }
  transitivity (flush env g).
  - rewrite <- (outcome_eta (flush env g)).
    unfold flush_if_due, bind, read. simpl.
    rewrite Kl, Ki, Hl, Hi. reflexivity.
  - exact (flush_writes env g text (eq_trans Ko Ho) Hne Hd Hw).
Qed.

(** ** Runs that throw *)

(** With [flushLines = 1], [add({a: Object.create(null)})] then
    [add({a: 'x'})]: the second call finds two rows in the buffer and
    flushes, the first row cannot be quoted, so the call throws
    ['not_a_string'], nothing is handed out and both rows stay buffered. *)
Lemma flushLines_threshold_unrenderable :
  let f0 := fresh (public_with LF 1 double_quote backslash) in
  let o :=
    add_all [(an_env, DObject [("a", VOther None)]);
             (an_env, DObject [("a", VString "x")])] f0 in
  flushLines (this f0) = 1%Z
  /\ result o = inl not_a_string
  /\ trace o = []
  /\ buffer (priv (final o)) = [[VOther None]; [VString "x"]].
Proof.
  cbv zeta. repeat split.
Qed.

(** [complete()] with a buffered row that cannot be quoted: the last flush
    throws, [complete] throws with it and the object is still open, so a
    later [add] is accepted. *)
Lemma complete_unrenderable_stays_open :
  let o := complete an_env file_unrenderable in
  open (priv file_unrenderable) = true
  /\ buffer (priv file_unrenderable) = [[VOther None]]
  /\ result o = inl not_a_string
  /\ open (priv (final o)) = true
  /\ result (add an_env (DArray []) (final o)) = inr tt.
Proof.
  cbv zeta. repeat split.
Qed.

(** ** The theorems at concrete objects *)

Lemma flush_header_decision_witness :
  let q s := double_quote ++ s ++ double_quote in
  let header := q "a" ++ LF in
  let x := q "x" ++ LF in
  let y := q "y" ++ LF in
  (lastPath (priv file_one_row) = None
   /\ trace (flush an_env file_one_row)
      = [Emit_data "out.csv" (header ++ x);
         WriteFile "out.csv" (header ++ x) "utf8"])
  /\ (lastPath (priv file_second_row) = Some "out.csv"
      /\ trace (flush an_env file_second_row)
         = [Emit_data "out.csv" y; AppendFile "out.csv" y "utf8"])
  /\ (lastPath (priv file_by_function) = Some "fn.csv"
      /\ trace (flush other_env file_by_function)
         = [Emit_data "other.csv" (header ++ y);
            WriteFile "other.csv" (header ++ y) "utf8"])
  /\ (overwrite (this file_append) = false
      /\ existsSync an_env "out.csv" = false
      /\ trace (flush an_env file_append)
         = [Emit_data "out.csv" x; AppendFile "out.csv" x "utf8"])
  /\ (existsSync env_exists "out.csv" = true
      /\ trace (flush env_exists file_append)
         = [Emit_data "out.csv" (header ++ x);
            AppendFile "out.csv" (header ++ x) "utf8"]).
Proof.
  cbv zeta.
  assert (Hb1 : buffer (priv file_one_row) <> []) by (vm_compute; discriminate).
  assert (Hb2 : buffer (priv file_second_row) <> []) by (vm_compute; discriminate).
  assert (Hb3 : buffer (priv file_by_function) <> []) by (vm_compute; discriminate).
  assert (Hb4 : buffer (priv file_append) <> []) by (vm_compute; discriminate).
  split; [|split; [|split; [|split]]].
  - split; [reflexivity|].
    destruct (proj2 (flush_header_decision an_env file_one_row
                       (double_quote ++ "x" ++ double_quote ++ LF)
                       eq_refl Hb1 eq_refl))
      as [csv [w [Ht [Hh [_ [Hw _]]]]]].
    assert (Hnew : lastPath (priv file_one_row)
                   <> Some (_getPath an_env file_one_row))
      by (vm_compute; discriminate).
    rewrite Ht, (Hw (conj eq_refl Hnew)),
      (Hh (conj eq_refl (conj Hnew (or_introl eq_refl)))).
    reflexivity.
  - split; [reflexivity|].
    destruct (proj2 (flush_header_decision an_env file_second_row
                       (double_quote ++ "y" ++ double_quote ++ LF)
                       eq_refl Hb2 eq_refl))
      as [csv [w [Ht [_ [Hn [_ Ha]]]]]].
    rewrite Ht, Ha, Hn.
    + reflexivity.
    + intros [_ [Hnew _]]. apply Hnew. reflexivity.
    + intros [_ Hnew]. apply Hnew. reflexivity.
  - split; [reflexivity|].
    destruct (proj2 (flush_header_decision other_env file_by_function
                       (double_quote ++ "y" ++ double_quote ++ LF)
                       eq_refl Hb3 eq_refl))
      as [csv [w [Ht [Hh [_ [Hw _]]]]]].
    assert (Hnew : lastPath (priv file_by_function)
                   <> Some (_getPath other_env file_by_function))
      by (vm_compute; discriminate).
    rewrite Ht, (Hw (conj eq_refl Hnew)),
      (Hh (conj eq_refl (conj Hnew (or_introl eq_refl)))).
    reflexivity.
  - split; [reflexivity|]. split; [reflexivity|].
    destruct (proj2 (flush_header_decision an_env file_append
                       (double_quote ++ "x" ++ double_quote ++ LF)
                       eq_refl Hb4 eq_refl))
      as [csv [w [Ht [_ [Hn [_ Ha]]]]]].
    rewrite Ht, Ha, Hn.
    + reflexivity.
    + intros [_ [_ [H | H]]]; discriminate H.
    + intros [H _]. discriminate H.
  - split; [reflexivity|].
    destruct (proj2 (flush_header_decision env_exists file_append
                       (double_quote ++ "x" ++ double_quote ++ LF)
                       eq_refl Hb4 eq_refl))
      as [csv [w [Ht [Hh [_ [_ Ha]]]]]].
    assert (Hnew : lastPath (priv file_append)
                   <> Some (_getPath env_exists file_append))
      by (vm_compute; discriminate).
    rewrite Ht, Ha, (Hh (conj eq_refl (conj Hnew (or_intror eq_refl)))).
    + reflexivity.
    + intros [H _]. discriminate H.
Defined.

Lemma flushLines_threshold_witness :
  let q s := double_quote ++ s ++ double_quote in
  let text := q "a" ++ LF ++ q "x" ++ LF ++ q "y" ++ LF in
  let f0 := fresh (public_with LF 1 double_quote backslash) in
  let first := (an_env, DObject [("a", VString "x")]) in
  let second := (an_env, DObject [("a", VString "y")]) in
  flushLines (this f0) = Z.of_nat 1
  /\ trace (add_all [first] f0) = []
  /\ trace (add_all [first; second] f0)
       = [Emit_data "out.csv" text; WriteFile "out.csv" text "utf8"]
  /\ buffer (priv (final (add_all [first; second] f0))) = [].
Proof.
  cbv zeta.
  pose proof (flushLines_threshold 1
                (fresh (public_with LF 1 double_quote backslash))
                [(an_env, DObject [("a", VString "x")])]
                an_env (DObject [("a", VString "y")])
                (double_quote ++ "x" ++ double_quote ++ LF
                 ++ double_quote ++ "y" ++ double_quote ++ LF)
                Nat.lt_0_1 eq_refl eq_refl eq_refl eq_refl
                (Forall_cons (P := fun c => is_row (snd c) = true)
                   (an_env, DObject [("a", VString "x")]) eq_refl (Forall_nil _))
                eq_refl eq_refl eq_refl)
    as [H1 [_ [_ [H2 H3]]]].
  split; [reflexivity|].
  split; [exact (f_equal trace H1)|].
  split; [exact (f_equal trace H2)|].
  exact H3.
Defined.

Lemma delimeter_option_witness :
  let o := options_with None None None [("delimiter", VString ";")] in
  let p := public_with LF 0 double_quote backslash in
  _getOptions LF (Some o) = inr p
  /\ opt_delimeter o = None
  /\ delimeter p = ",".
Proof.
  cbv zeta. split; [reflexivity|]. split; [reflexivity|].
  exact (proj1 (proj2 (delimeter_option LF
                         (options_with None None None [("delimiter", VString ";")])
                         (public_with LF 0 double_quote backslash) eq_refl))
               eq_refl).
Defined.

Lemma flush_records_destination_witness :
  let q s := double_quote ++ s ++ double_quote in
  let text := q "a" ++ LF ++ q "x" ++ LF in
  open (priv file_one_row) = true
  /\ buffer (priv file_one_row) = [[VString "x"]]
  /\ _generateCsvData file_one_row = inr (q "x" ++ LF)
  /\ fs_write_throws "out.csv" "utf8" = false
  /\ lastPath (priv file_one_row) = None
  /\ result (flush an_env file_one_row) = inr tt
  /\ lastPath (priv (final (flush an_env file_one_row))) = Some "out.csv".
Proof.
  cbv zeta.
  assert (Hb : buffer (priv file_one_row) <> []) by (vm_compute; discriminate).
  destruct (proj1 (proj2 (flush_records_destination an_env file_one_row
                            (double_quote ++ "x" ++ double_quote ++ LF)
                            eq_refl Hb eq_refl)) eq_refl)
    as [Hres [Hlast _]].
  repeat split; first [ exact Hres | exact Hlast | reflexivity ].
Defined.

(** [flush()] with the encoding ['nope']: the text is handed to the
    listeners and the write call is made, the call throws, and [lastPath]
    is not the path of this flush; the rows are no longer in the buffer. *)
Lemma flush_refused_records_nothing :
  let q s := double_quote ++ s ++ double_quote in
  let text := q "a" ++ LF ++ q "x" ++ LF in
  let o := flush an_env file_bad_encoding in
  encoding (this file_bad_encoding) = "nope"
  /\ buffer (priv file_bad_encoding) = [[VString "x"]]
  /\ trace o = [Emit_data "out.csv" text; WriteFile "out.csv" text "nope"]
  /\ result o = inl TypeError
  /\ lastPath (priv (final o)) = None
  /\ lastPath (priv (final o)) <> Some (_getPath an_env file_bad_encoding)
  /\ buffer (priv (final o)) = [].
Proof.
  cbv zeta. repeat split. discriminate.
Qed.

Lemma lifecycle_witness :
  let q s := double_quote ++ s ++ double_quote in
  let text := q "a" ++ LF ++ q "x" ++ LF in
  let o := complete an_env file_one_row in
  open (priv file_one_row) = true
  /\ timerFlushInterval (priv file_one_row) = TimerUndefined
  /\ trace o
     = [ClearInterval TimerUndefined;
        Emit_data "out.csv" text; WriteFile "out.csv" text "utf8"]
  /\ result o = inr tt
  /\ open (priv (final o)) = false
  /\ buffer (priv (final o)) = []
  /\ result (add an_env (DArray []) (final o)) = inl file_not_open.
Proof.
  cbv zeta.
  destruct (proj2 (lifecycle an_env file_one_row) eq_refl)
    as [Htrace [Hres [_ [Hok _]]]].
  destruct (Hok eq_refl) as [_ [Hclosed Hbuf]].
  split; [reflexivity|]. split; [reflexivity|].
  split; [rewrite Htrace; reflexivity|].
  split; [rewrite Hres; reflexivity|].
  split; [exact Hclosed|]. split; [exact Hbuf|].
  destruct (proj1 (lifecycle an_env (final (complete an_env file_one_row))) Hclosed)
    as [Hadd _].
  exact (f_equal result (Hadd (DArray []))).
Defined.

Lemma flush_frame_witness :
  this (final (flush an_env file_one_row)) = this file_one_row
  /\ buffer (priv (final (flush an_env file_one_row))) = []
  /\ lastPath (priv (final (flush an_env file_bad_encoding)))
     = lastPath (priv file_bad_encoding)
  /\ buffer (priv (final (flush an_env file_bad_encoding))) = [].
Proof.
  destruct (flush_frame an_env file_one_row) as [_ [Hthis [_ [_ [Hbuf _]]]]].
  destruct (flush_frame an_env file_bad_encoding)
    as [_ [_ [_ [_ [_ [Hout _]]]]]].
  split; [exact Hthis|]. split; [exact (Hbuf eq_refl)|].
  split; [reflexivity|]. apply Hout. vm_compute. discriminate.
Defined.

Lemma _enquote_first_quote_only_witness :
  let f := file_one_row in
  toString_member (VOther (Some "say hi")) = Some "say hi"
  /\ dollar_free (escape (this f) ++ quote (this f)) = true
  /\ _enquote f (VOther (Some "say hi"))
       = inr (double_quote ++ "say hi" ++ double_quote).
Proof.
  cbv zeta. split; [reflexivity|]. split; [reflexivity|].
  destruct (_enquote_first_quote_only file_one_row (VOther (Some "say hi"))
              "say hi" eq_refl eq_refl) as [[_ H] | [before [after [_ [_ H]]]]].
  - exact H.
  - reflexivity.
Defined.

Lemma add_invalid_data_iff_witness :
  let f0 := fresh (public_with LF 0 double_quote backslash) in
  open (priv f0) = true
  /\ result (add an_env (DNumber 5) f0) = inl invalid_data
  /\ result (add an_env DUndefined f0) = inl invalid_data.
Proof.
  cbv zeta. split; [reflexivity|]. split.
  - apply (proj2 (add_invalid_data_iff an_env (DNumber 5)
                    (fresh (public_with LF 0 double_quote backslash)) eq_refl)).
    discriminate.
  - apply (proj2 (add_invalid_data_iff an_env DUndefined
                    (fresh (public_with LF 0 double_quote backslash)) eq_refl)).
    discriminate.
Defined.

Lemma render_line_pads_witness :
  let line := double_quote ++ "x" ++ double_quote ++ "," ++ "NULL" ++ LF in
  fields (this file_two_columns)
    = [("a", {| quoted := true |}); ("b", {| quoted := true |})]
  /\ render_line file_two_columns [VString "x"] = inr line
  /\ exists cells,
       List.length cells = 1%nat
       /\ line = join_strings "," (cells ++ repeat "NULL" 1) ++ LF.
Proof.
  cbv zeta. split; [reflexivity|]. split; [reflexivity|].
  exact (render_line_pads file_two_columns [VString "x"] _ eq_refl).
Defined.

Lemma flush_excess_value_throws_witness :
  open (priv file_excess) = true
  /\ fields (this file_excess) = []
  /\ buffer (priv file_excess) = [[VString "x"]]
  /\ exists e,
       (e = TypeError \/ e = not_a_string)
       /\ flush an_env file_excess
            = {| final := file_excess; trace := []; result := inl e |}.
Proof.
  split; [reflexivity|]. split; [reflexivity|]. split; [reflexivity|].
  refine (flush_excess_value_throws an_env file_excess [VString "x"] 0
            (VString "x") eq_refl (or_introl eq_refl) eq_refl (le_n 0)
            _ _ eq_refl); discriminate.
Defined.

Lemma add_flushes_at_once_witness :
  let text := double_quote ++ "a" ++ double_quote ++ LF
              ++ double_quote ++ "x" ++ double_quote ++ LF in
  let f0 := fresh (public_with LF 0 double_quote backslash) in
  flushLines (this f0) = 0%Z /\ flushInterval (this f0) = 0%Z
  /\ add an_env (DObject [("a", VString "x")]) f0
     = {| final :=
            set_lastPath (Some "out.csv")
              (set_fields [("a", {| quoted := true |})] f0);
          trace := [Emit_data "out.csv" text; WriteFile "out.csv" text "utf8"];
          result := inr tt |}.
Proof.
  cbv zeta. split; [reflexivity|]. split; [reflexivity|].
  exact (proj2 (add_flushes_at_once an_env
                  (fresh (public_with LF 0 double_quote backslash))
                  (DObject [("a", VString "x")])
                  (double_quote ++ "x" ++ double_quote ++ LF)
                  eq_refl eq_refl eq_refl eq_refl eq_refl eq_refl eq_refl)).
Defined.

(** ** The constructor *)

(** X6. [new File(options)] throws in two cases and no other: a [TypeError]
    exactly when it is given [null], and the missing path exactly when it is
    given nothing or something without [path].  Otherwise the object is
    open, its buffer is empty and no path has been written to; a timer is
    started, with the configured interval, exactly when [flushInterval] is
    positive. *)
Theorem new_File_outcome (os_EOL : string) (options : constructor_argument) :
  (new_File os_EOL options = inl TypeError <-> options = ArgNull)
  /\ (new_File os_EOL options = inl missing_option_path
      <-> (options = None \/ exists o, options = Some o /\ opt_path o = None))
  /\ (forall e, new_File os_EOL options = inl e ->
        e = TypeError \/ e = missing_option_path)
  /\ (forall f started,
        new_File os_EOL options = inr (f, started) ->
        open (priv f) = true
        /\ buffer (priv f) = []
        /\ lastPath (priv f) = None
        /\ (exists o, options = Some o /\ opt_path o = Some (path (this f)))
        /\ ((0 < flushInterval (this f))%Z ->
            started = [SetInterval (flushInterval (this f))]
            /\ timerFlushInterval (priv f) = TimerHandle)
        /\ ((flushInterval (this f) <= 0)%Z ->
            started = [] /\ timerFlushInterval (priv f) = TimerUndefined)).
Proof.
  unfold new_File.
  destruct options as [|[o|]].
  - simpl. split; [split; reflexivity|].
    split; [split; [discriminate | intros [H | [o' [H _]]]; discriminate H]|].
    split; [intros e H; injection H as <-; auto | discriminate].
  - rewrite _getOptions_object.
    destruct (opt_path o) as [pth|] eqn:Ep; cbv zeta.
    + split; [split; discriminate|].
      split; [split; [discriminate | intros [H | [o' [H1 H2]]]; congruence]|].
      split; [discriminate|].
      intros f started H. injection H as <- <-. simpl.
      repeat match goal with |- _ /\ _ => split end; try reflexivity.
      * exists o. auto.
      * intro Hpos. apply Z.ltb_lt in Hpos. rewrite Hpos. auto.
      * intro Hle. apply Z.ltb_ge in Hle. rewrite Hle. auto.
    + split; [split; discriminate|].
      split; [split; [intros _; right; exists o; auto | reflexivity]|].
      split; [intros e H; injection H as <-; auto | discriminate].
  - simpl. split; [split; discriminate|].
    split; [split; [auto | reflexivity]|].
    split; [intros e H; injection H as <-; auto | discriminate].
Qed.

(** ** The schema *)

Lemma get_app_None {A : Type} (k : string) (l l' : list (string * A)) :
  get k (l ++ l') = None -> get k l = None.
Proof.
  induction l as [|[k0 v0] l IH]; simpl; intro H; [reflexivity|].
  destruct (String.eqb k0 k); [discriminate | exact (IH H)].
Qed.

Lemma get_app_Some {A : Type} (k : string) (v : A) (l l' : list (string * A)) :
  get k l = Some v -> get k (l ++ l') = Some v.
Proof.
  induction l as [|[k0 v0] l IH]; simpl; intro H; [discriminate|].
  destruct (String.eqb k0 k); [exact H | exact (IH H)].
Qed.

Lemma get_app_last {A : Type} (k : string) (v : A) (l : list (string * A)) :
  get k (l ++ [(k, v)]) <> None.
Proof.
  induction l as [|[k0 v0] l IH]; simpl.
  - rewrite String.eqb_refl. discriminate.
  - destruct (String.eqb k0 k); [discriminate | exact IH].
Qed.

Lemma get_app_other {A : Type} (k name : string) (v : A)
  (l : list (string * A)) :
  name <> k -> get k (l ++ [(name, v)]) = get k l.
Proof.
  intro Hne. induction l as [|[k0 v0] l IH]; simpl.
  - apply String.eqb_neq in Hne. rewrite Hne. reflexivity.
  - destruct (String.eqb k0 k); [reflexivity | exact IH].
Qed.

Lemma get_Some_In {A : Type} (k : string) (v : A) (l : list (string * A)) :
  get k l = Some v -> In k (Object_keys l).
Proof.
  intro H. apply Object_keys_In, get_In. rewrite H. discriminate.
Qed.

Lemma get_Some_key {A : Type} (k : string) (v : A) (l : list (string * A)) :
  get k l = Some v -> exists i, nth_error (Object_keys l) i = Some k.
Proof.
  intro H. apply In_nth_error. exact (get_Some_In k v l H).
Qed.

Lemma get_nth_key {A : Type} (l : list (string * A)) (i : nat) (d : string) :
  (i < List.length l)%nat ->
  get (nth i (Object_keys l) d) l <> None.
Proof.
  intro Hi. apply get_In, Object_keys_In, nth_In.
  rewrite Object_keys_length. exact Hi.
Qed.

(** The field of a cell: the key [_generateCsvData] reads [this.fields]
    at is an own key or "undefined", so whenever [this.fields] has anything
    under it, it has an own property. *)
Lemma field_of_cell_is_own {A : Type} (l : list (string * A)) (i : nat) :
  is_defined (nth i (Object_keys l) "undefined") l = true ->
  get (nth i (Object_keys l) "undefined") l <> None.
Proof.
  destruct (Nat.lt_ge_cases i (List.length l)) as [Hlt | Hge].
  - intros _. exact (get_nth_key l i "undefined" Hlt).
  - rewrite nth_overflow by (rewrite Object_keys_length; exact Hge).
    unfold is_defined. destruct (get "undefined" l); [discriminate|].
    simpl. discriminate.
Qed.

Lemma is_defined_false {A : Type} (name : string) (obj : list (string * A)) :
  is_defined name obj = false <-> get name obj = None /\ inherited name = None.
Proof.
  unfold is_defined. destruct (get name obj); destruct (inherited name);
    split; try discriminate; auto; intros [H1 H2]; discriminate.
Qed.

(** What inference adds to a schema: new fields after the ones it had, all
    quoted, none of a name under which the schema had anything. *)
Lemma _autodetectFields_names_appends (names : list string) :
  forall fs,
  exists added,
    _autodetectFields_names names fs = (fs ++ added)%list
    /\ Forall (fun kc => quoted (snd kc) = true
                         /\ In (fst kc) names
                         /\ get (fst kc) fs = None
                         /\ inherited (fst kc) = None) added.
Proof.
  induction names as [|name rest IH]; intro fs; simpl.
  - exists []. rewrite app_nil_r. split; [reflexivity | constructor].
  - destruct (is_defined name fs) eqn:Ed.
    + destruct (IH fs) as [added [E Hall]]. exists added. split; [exact E|].
      eapply Forall_impl; [|exact Hall]. simpl. intros kc [Hq [Hin Hg]]. auto.
    + apply is_defined_false in Ed. destruct Ed as [Eg Ei].
      destruct (IH (fs ++ [(name, {| quoted := true |})])%list) as [added [E Hall]].
      exists ((name, {| quoted := true |}) :: added). split.
      * rewrite E, <- app_assoc. reflexivity.
      * constructor; [simpl; auto|].
        eapply Forall_impl; [|exact Hall]. simpl. intros kc [Hq [Hin [Hg Hi]]].
        split; [exact Hq|]. split; [right; exact Hin|].
        split; [exact (get_app_None _ _ _ Hg) | exact Hi].
Qed.

(** Every key that [Object.prototype] does not have is a field afterwards,
    and so is every field there was. *)
Lemma _autodetectFields_names_covers (names : list string) :
  forall fs k,
    (In k names /\ inherited k = None) \/ get k fs <> None ->
    get k (_autodetectFields_names names fs) <> None.
Proof.
  induction names as [|name rest IH]; intros fs k H; simpl.
  - destruct H as [[[] _] | H]; exact H.
  - destruct (is_defined name fs) eqn:Ed.
    + apply IH. destruct H as [[[<- | Hin] Hi] | H]; auto.
      right. unfold is_defined in Ed. rewrite Hi in Ed.
      destruct (get name fs); [discriminate | discriminate Ed].
    + apply IH. destruct H as [[[<- | Hin] Hi] | H]; auto.
      * right. apply get_app_last.
      * right. destruct (get k fs) as [c|] eqn:Ek; [|contradiction].
        rewrite (get_app_Some _ _ _ _ Ek). discriminate.
Qed.

(** A key that [Object.prototype] has never becomes a field. *)
Lemma _autodetectFields_names_skips (names : list string) :
  forall fs k,
    inherited k <> None -> get k fs = None ->
    get k (_autodetectFields_names names fs) = None.
Proof.
  induction names as [|name rest IH]; intros fs k Hi Hg; simpl.
  - exact Hg.
  - destruct (is_defined name fs) eqn:Ed.
    + exact (IH fs k Hi Hg).
    + apply is_defined_false in Ed. destruct Ed as [_ Ei].
      apply IH; [exact Hi|]. rewrite get_app_other; [exact Hg|].
      intros ->. contradiction.
Qed.

Lemma this_set_fields (fs fs' : list (string * field)) (f g : File) :
  this g = this (set_fields fs f) ->
  this (set_fields fs' g) = this (set_fields fs' f).
Proof.
  destruct f as [pf qf], g as [pg qg]. simpl. intros ->. reflexivity.
Qed.

Lemma grown_from_refl (f : File) : grown_from f f.
Proof.
  exists []. rewrite app_nil_r. split; [|constructor].
  destruct f as [[] q]. reflexivity.
Qed.

Lemma grown_from_trans (f g h : File) :
  grown_from f g -> grown_from g h -> grown_from f h.
Proof.
  intros [a1 [E1 H1]] [a2 [E2 H2]].
  assert (Ef : fields (this g) = (fields (this f) ++ a1)%list)
    by (rewrite E1; reflexivity).
  exists (a1 ++ a2)%list. split.
  - rewrite E2, Ef, <- app_assoc. exact (this_set_fields _ _ f g E1).
  - apply Forall_app. split; [exact H1|].
    eapply Forall_impl; [|exact H2]. simpl. intros kc [Hq [Hg Hi]].
    split; [exact Hq|]. rewrite Ef in Hg.
    split; [exact (get_app_None _ _ _ Hg) | exact Hi].
Qed.

Lemma grown_from_private (f g : File) :
  this g = this f -> grown_from f g.
Proof.
  intro E. exists []. rewrite app_nil_r. split; [|constructor].
  rewrite E. destruct f as [[] q]. reflexivity.
Qed.

Lemma grown_from_options (f g : File) :
  grown_from f g ->
  encoding (this g) = encoding (this f)
  /\ overwrite (this g) = overwrite (this f)
  /\ headers (this g) = headers (this f)
  /\ path (this g) = path (this f)
  /\ flushLines (this g) = flushLines (this f)
  /\ flushInterval (this g) = flushInterval (this f).
Proof.
  intros [added [E _]]. rewrite E. simpl. repeat split.
Qed.

(** The write call is refused or not for the path and the encoding, which
    no call changes. *)
Lemma grown_from_refusal (env : Env) (f g : File) :
  grown_from f g ->
  fs_write_throws (_getPath env g) (encoding (this g))
  = fs_write_throws (_getPath env f) (encoding (this f)).
Proof.
  intro H. destruct (grown_from_options f g H) as [Ee [_ [_ [Ep _]]]].
  unfold _getPath. rewrite Ee, Ep. reflexivity.
Qed.

Lemma pushed_grown (data : jsdata) (f : File) : grown_from f (pushed data f).
Proof.
  destruct data as [| | b | z | s | | items | props];
    try (apply grown_from_private; destruct f as [[] q]; reflexivity).
  unfold pushed. simpl.
  destruct (_autodetectFields_names_appends (Object_keys props) (fields (this f)))
    as [added [E Hall]].
  exists added. split.
  - simpl. rewrite E. reflexivity.
  - eapply Forall_impl; [|exact Hall]. simpl. intros kc [Hq [_ Hg]]. auto.
Qed.

Lemma flush_if_due_cases (env : Env) (g : File) :
  flush_if_due env g = flush env g
  \/ flush_if_due env g = {| final := g; trace := []; result := inr tt |}.
Proof.
  rewrite <- (outcome_eta (flush env g)).
  unfold flush_if_due, bind, read. simpl.
  destruct ((0 <? flushLines (this g))%Z
            && (flushLines (this g) <? Z.of_nat (List.length (buffer (priv g))))%Z);
    [left; reflexivity|].
  destruct ((flushLines (this g) =? 0)%Z && (flushInterval (this g) =? 0)%Z);
    [left | right]; reflexivity.
Qed.

(** The three ways a call of [add] can go. *)
Lemma add_cases (env : Env) (data : jsdata) (f : File) :
  (exists e, (open (priv f) = false \/ is_row data = false)
             /\ add env data f = {| final := f; trace := []; result := inl e |})
  \/ (open (priv f) = true /\ is_row data = true
      /\ add env data f = flush env (pushed data f))
  \/ (open (priv f) = true /\ is_row data = true
      /\ add env data f
           = {| final := pushed data f; trace := []; result := inr tt |}).
Proof.
  destruct (open (priv f)) eqn:Ho.
  - destruct (is_row data) eqn:Hr.
    + right. rewrite (add_row env data f Ho Hr).
      destruct (flush_if_due_cases env (pushed data f)) as [E | E];
        rewrite E; auto.
    + left. destruct data; try discriminate Hr.
      * exists invalid_data. split; [auto|].
        apply add_not_object; [exact Ho | discriminate].
      * exists TypeError. split; [auto|]. apply add_null. exact Ho.
      * exists invalid_data. split; [auto|].
        apply add_not_object; [exact Ho | discriminate].
      * exists invalid_data. split; [auto|].
        apply add_not_object; [exact Ho | discriminate].
      * exists invalid_data. split; [auto|].
        apply add_not_object; [exact Ho | discriminate].
      * exists invalid_data. split; [auto|].
        apply add_not_object; [exact Ho | discriminate].
  - left. exists file_not_open. split; [auto|]. apply add_closed. exact Ho.
Qed.

(** The ways a call of [complete] on an open object can go: the timer
    cleared, then the flush, then the closing when the flush returned. *)
Lemma complete_cases (env : Env) (f : File) :
  open (priv f) = true ->
  let f0 := set_timerFlushInterval TimerNull f in
  let cleared :=
    if timer_is_null (timerFlushInterval (priv f)) then []
    else [ClearInterval (timerFlushInterval (priv f))] in
  trace (complete env f) = (cleared ++ trace (flush env f0))%list
  /\ (final (complete env f) = final (flush env f0)
      \/ final (complete env f) = set_open false (final (flush env f0))).
Proof.
  intros Ho f0 cleared. rewrite (complete_open env f Ho). fold f0 cleared.
  cbv zeta. destruct (result (flush env f0)); simpl; auto.
Qed.

Lemma perform_call_grown (c : call) (f : File) :
  grown_from f (final (perform_call c f)).
Proof.
  destruct c as [env data | env | env]; simpl.
  - destruct (add_cases env data f)
      as [[e [_ E]] | [[_ [_ E]] | [_ [_ E]]]]; rewrite E; simpl.
    + apply grown_from_refl.
    + apply (grown_from_trans f (pushed data f)); [apply pushed_grown|].
      apply grown_from_private. apply flush_keeps_this.
    + apply pushed_grown.
  - apply grown_from_private. apply flush_keeps_this.
  - destruct (open (priv f)) eqn:Ho.
    + destruct (complete_cases env f Ho) as [_ [E | E]]; rewrite E;
        apply grown_from_private; simpl; rewrite flush_keeps_this; reflexivity.
    + rewrite (complete_closed env f Ho). apply grown_from_refl.
Qed.

Lemma run_calls_grown (cs : list call) :
  forall f, grown_from f (fst (run_calls cs f)).
Proof.
  induction cs as [|c rest IH]; intro f; simpl.
  - apply grown_from_refl.
  - exact (grown_from_trans _ _ _ (perform_call_grown c f) (IH _)).
Qed.

(** X7. Whatever calls a caller makes, the object keeps every property on
    [this] it was constructed with, and its schema only grows: the fields
    it had keep their quoting, every field that inference adds is quoted and
    of a name under which the schema had nothing, own or inherited, and
    every column stays a column.  When none of the names added is an array
    index, the new columns come after the ones there were, which keep their
    positions. *)
Theorem run_calls_schema (cs : list call) (f : File) :
  let g := fst (run_calls cs f) in
  exists added,
    this g = this (set_fields (fields (this f) ++ added) f)
    /\ fields (this g) = (fields (this f) ++ added)%list
    /\ Forall (fun kc => quoted (snd kc) = true
                         /\ get (fst kc) (fields (this f)) = None
                         /\ inherited (fst kc) = None) added
    /\ (forall k c, get k (fields (this f)) = Some c ->
          get k (fields (this g)) = Some c)
    /\ (forall k, In k (Object_keys (fields (this f))) ->
          In k (Object_keys (fields (this g))))
    /\ (Forall (fun kc => is_array_index (fst kc) = false) added ->
        Object_keys (fields (this g))
          = (Object_keys (fields (this f)) ++ map fst added)%list
        /\ forall i, (i < List.length (fields (this f)))%nat ->
             nth_error (Object_keys (fields (this g))) i
               = nth_error (Object_keys (fields (this f))) i).
Proof.
  cbv zeta. destruct (run_calls_grown cs f) as [added [E Hall]].
  assert (Ef : fields (this (fst (run_calls cs f)))
               = (fields (this f) ++ added)%list) by (rewrite E; reflexivity).
  exists added. split; [exact E|]. split; [exact Ef|]. split; [exact Hall|].
  split; [|split].
  - intros k c Hk. rewrite Ef. exact (get_app_Some _ _ _ _ Hk).
  - intros k Hk. rewrite Ef. apply Object_keys_In. rewrite map_app.
    apply in_or_app. left. apply Object_keys_In. exact Hk.
  - intro Hnames. rewrite Ef, (Object_keys_app _ _ Hnames).
    split; [reflexivity|].
    intros i Hi. apply nth_error_app1. rewrite Object_keys_length. exact Hi.
Qed.

(** X8. What is buffered for a row given as an object: one value per
    column, read from the row under the name of the column.  A key of the
    row is a column once the row is pushed, with its value at the position
    of that column, unless it is the name of a member of [Object.prototype]
    that was no field before: such a key never becomes a column.  Under a
    column the row has no key for, the buffered value is [undefined] unless
    the column has the name of a member of [Object.prototype], and then it
    is that member. *)
Theorem pushed_object_lookup (f : File) (props : list (string * value)) :
  let g := pushed (DObject props) f in
  let row :=
    map (fun name => get_value name props) (Object_keys (fields (this g))) in
  buffer (priv g) = (buffer (priv f) ++ [row])%list
  /\ List.length row = List.length (fields (this g))
  /\ (forall k v,
        get k props = Some v ->
        inherited k = None \/ get k (fields (this f)) <> None ->
        exists i,
          nth_error (Object_keys (fields (this g))) i = Some k
          /\ nth_error row i = Some v)
  /\ (forall k,
        inherited k <> None -> get k (fields (this f)) = None ->
        get k (fields (this g)) = None
        /\ ~ In k (Object_keys (fields (this g))))
  /\ (forall i k,
        nth_error (Object_keys (fields (this g))) i = Some k ->
        get k props = None ->
        nth_error row i
          = Some (match inherited k with Some m => m | None => VUndefined end))
  /\ (forall env, open (priv f) = true ->
        add env (DObject props) f = flush_if_due env g).
Proof.
  intros g row.
  assert (Eg : fields (this g)
               = _autodetectFields_names (Object_keys props) (fields (this f)))
    by reflexivity.
  split; [reflexivity|]. split; [|split; [|split; [|split]]].
  - subst row. rewrite length_map, Object_keys_length. reflexivity.
  - intros k v Hk Hcol.
    assert (Hget : get k (fields (this g)) <> None).
    { rewrite Eg. apply _autodetectFields_names_covers.
      destruct Hcol as [Hi | Hf]; [left | right; exact Hf].
      split; [exact (get_Some_In _ _ _ Hk) | exact Hi]. }
    destruct (get k (fields (this g))) as [c|] eqn:Ec; [|contradiction].
    destruct (get_Some_key _ _ _ Ec) as [i Hi].
    exists i. split; [exact Hi|]. subst row.
    rewrite (map_nth_error (fun n => get_value n props) i _ Hi).
    unfold get_value. rewrite Hk. reflexivity.
  - intros k Hi Hf.
    assert (Hnone : get k (fields (this g)) = None)
      by (rewrite Eg; exact (_autodetectFields_names_skips _ _ _ Hi Hf)).
    split; [exact Hnone|].
    intro Hin. apply Object_keys_In, get_In in Hin. contradiction.
  - intros i k Hi Hk. subst row.
    rewrite (map_nth_error (fun n => get_value n props) i _ Hi).
    unfold get_value. rewrite Hk. reflexivity.
  - intros env Ho. exact (add_row env (DObject props) f Ho eq_refl).
Qed.

(** ** When a flush throws *)

Lemma map_from_nth_error {A B : Type} (fn : A -> nat -> exn + B) (l : list A) :
  forall index ys,
    map_from fn index l = inr ys ->
    forall i x, nth_error l i = Some x ->
    exists y, fn x (index + i)%nat = inr y /\ nth_error ys i = Some y.
Proof.
  induction l as [|x0 rest IH]; intros index ys H i x Hx; simpl in H.
  - destruct i; discriminate Hx.
  - destruct (fn x0 index) as [e|y0] eqn:E0; simpl in H; [discriminate|].
    destruct (map_from fn (S index) rest) as [e|ys'] eqn:Er; simpl in H;
      [discriminate|].
    injection H as <-. destruct i as [|i]; simpl in Hx.
    + injection Hx as <-. exists y0. rewrite Nat.add_0_r. auto.
    + destruct (IH _ _ Er i x Hx) as [y [Hy Hn]]. exists y.
      rewrite Nat.add_succ_r. auto.
Qed.

Lemma map_from_succeeds {A B : Type} (fn : A -> nat -> exn + B) (l : list A) :
  forall index,
    (forall i x, nth_error l i = Some x ->
       exists y, fn x (index + i)%nat = inr y) ->
    exists ys, map_from fn index l = inr ys.
Proof.
  induction l as [|x0 rest IH]; intros index H; simpl.
  - exists []. reflexivity.
  - destruct (H 0%nat x0 eq_refl) as [y0 Hy0]. rewrite Nat.add_0_r in Hy0.
    rewrite Hy0. simpl.
    destruct (IH (S index)) as [ys Hys].
    { intros i x Hx. destruct (H (S i) x Hx) as [y Hy]. exists y.
      rewrite Nat.add_succ_r in Hy. exact Hy. }
    rewrite Hys. simpl. exists (y0 :: ys). reflexivity.
Qed.

Lemma map_from_result_nth {A B : Type} (fn : A -> nat -> exn + B) (l : list A) :
  forall index ys,
    map_from fn index l = inr ys ->
    forall i y, nth_error ys i = Some y ->
    exists x, nth_error l i = Some x /\ fn x (index + i)%nat = inr y.
Proof.
  induction l as [|x0 rest IH]; intros index ys H i y Hy; simpl in H.
  - injection H as <-. destruct i; discriminate Hy.
  - destruct (fn x0 index) as [e|y0] eqn:E0; simpl in H; [discriminate|].
    destruct (map_from fn (S index) rest) as [e|ys'] eqn:Er; simpl in H;
      [discriminate|].
    injection H as <-. destruct i as [|i]; simpl in Hy.
    + injection Hy as <-. exists x0. rewrite Nat.add_0_r. auto.
    + destruct (IH _ _ Er i y Hy) as [x [Hx Hf]]. exists x.
      rewrite Nat.add_succ_r. auto.
Qed.

(** A cell that can be written gives an element [join] accepts, and only
    such a cell does. *)
Lemma render_cell_joins (f : File) (v : value) (i : nat) :
  cell_renders f i v = true
  <-> exists y t, render_cell f v i = inr y /\ join_element y = inr t.
Proof.
  unfold cell_renders, render_cell, has_toString, joins.
  destruct (get (nth i (Object_keys (fields (this f))) "undefined")
                (fields (this f))) as [fc|];
    [destruct (quoted fc)|];
    destruct v as [| |s|[s|]|[m|] [c|]]; simpl; split;
    first [ intros _; reflexivity
          | intros _; eexists; eexists; split; reflexivity
          | discriminate
          | intros [y [t [H J]]];
            first [ discriminate H | injection H as <-; discriminate J ] ].
Qed.

Lemma render_line_succeeds_iff (f : File) (row : list value) :
  (exists line, render_line f row = inr line)
  <-> (forall i v, nth_error row i = Some v -> cell_renders f i v = true).
Proof.
  unfold render_line, Array_join. split.
  - intros [line H] i v Hv.
    destruct (map_from (render_cell f) 0 row) as [e|line0] eqn:E0; simpl in H;
      [discriminate|].
    match type of H with
    | sum_bind (sum_bind (map_from ?fn 0 ?l) _) _ = _ =>
        destruct (map_from fn 0 l) as [e|texts] eqn:E1; simpl in H; [discriminate|]
    end.
    destruct (map_from_nth_error _ _ _ _ E0 i v Hv) as [y [Hy Hn]]. simpl in Hy.
    assert (Hn' : nth_error
                    (line0 ++ repeat (VString (nullValue (this f)))
                       (List.length (Object_keys (fields (this f)))
                        - List.length line0)) i = Some y).
    { rewrite nth_error_app1; [exact Hn|].
      apply nth_error_Some. rewrite Hn. discriminate. }
    destruct (map_from_nth_error _ _ _ _ E1 i y Hn') as [t [Ht _]].
    apply render_cell_joins. exists y, t. auto.
  - intro Hall.
    destruct (map_from_succeeds (render_cell f) row 0) as [line0 E0].
    { intros i v Hv. simpl.
      destruct (proj1 (render_cell_joins f v i) (Hall i v Hv)) as [y [t [Hy _]]].
      exists y. exact Hy. }
    rewrite E0. simpl.
    match goal with
    | |- exists line, sum_bind (sum_bind (map_from ?fn 0 ?l) _) _ = _ =>
        destruct (map_from_succeeds fn l 0) as [texts E1]
    end.
    { intros i y Hy. simpl.
      destruct (Nat.lt_ge_cases i (List.length line0)) as [Hlt | Hge].
      - rewrite nth_error_app1 in Hy by exact Hlt.
        destruct (map_from_result_nth _ _ _ _ E0 i y Hy) as [v [Hv Hr]].
        simpl in Hr.
        destruct (proj1 (render_cell_joins f v i) (Hall i v Hv))
          as [y' [t [Hy' Ht]]].
        rewrite Hr in Hy'. injection Hy' as <-. exists t. exact Ht.
      - rewrite nth_error_app2 in Hy by exact Hge.
        apply nth_error_In, repeat_spec in Hy. subst y.
        eexists. reflexivity. }
    rewrite E1. simpl. eexists. reflexivity.
Qed.

Lemma _generateCsvData_succeeds_iff (f : File) :
  (exists text, _generateCsvData f = inr text)
  <-> (forall row, In row (buffer (priv f)) ->
       forall i v, nth_error row i = Some v -> cell_renders f i v = true).
Proof.
  unfold _generateCsvData. split.
  - intros [text H] row Hin.
    destruct (map_from (fun lineData _ => render_line f lineData) 0
                       (buffer (priv f))) as [e|lines] eqn:El; simpl in H;
      [discriminate|].
    destruct (In_nth_error _ _ Hin) as [j Hj].
    destruct (map_from_nth_error _ _ _ _ El j row Hj) as [line [Hl _]].
    apply render_line_succeeds_iff. exists line. exact Hl.
  - intro Hall.
    destruct (map_from_succeeds (fun lineData (_ : nat) => render_line f lineData)
                (buffer (priv f)) 0) as [lines El].
    { intros j row Hj. apply render_line_succeeds_iff.
      exact (Hall row (nth_error_In _ _ Hj)). }
    rewrite El. simpl. eexists. reflexivity.
Qed.

(** X9. On an open object [flush] returns exactly when every cell of every
    buffered row can be written and, unless the buffer is empty, the file
    system does not refuse the write call.  A cell can be written when the
    value is [undefined] or [null], or when its position has a field (a
    column of the schema, or past it a column named "undefined") and the
    value has what the field asks for: a [toString] in a quoted column, a
    conversion by [join] in one that is not quoted. *)
Theorem flush_returns_iff (env : Env) (f : File) :
  open (priv f) = true ->
  (result (flush env f) = inr tt
   <-> (forall row, In row (buffer (priv f)) ->
        forall i v, nth_error row i = Some v -> cell_renders f i v = true)
       /\ (buffer (priv f) = []
           \/ fs_write_throws (_getPath env f) (encoding (this f)) = false)).
Proof.
  intro Ho. rewrite <- _generateCsvData_succeeds_iff.
  split_flush env f; rewrite Hrun; simpl; try congruence.
  - split; [intros _|reflexivity]. split; [|left; exact Hbuf].
    apply _generateCsvData_succeeds_iff. rewrite Hbuf. intros row [].
  - split; [discriminate|]. intros [[t Ht] _]. congruence.
  - split; [intros _ | reflexivity].
    split; [eexists; exact Hdata | right; exact Hwrite].
  - split; [discriminate|]. intros [_ [Hb | Hw]]; congruence.
Qed.

(** ** Rows that always render, and a row that never does *)

Lemma row_fits_renders (f : File) (row : list value) :
  row_fits f row ->
  forall i v, nth_error row i = Some v -> cell_renders f i v = true.
Proof.
  intros [Hlen Hall] i v Hv. unfold cell_renders.
  assert (Hi : (i < List.length (fields (this f)))%nat).
  { assert (i < List.length row)%nat
      by (apply nth_error_Some; rewrite Hv; discriminate). lia. }
  pose proof (get_nth_key (fields (this f)) i "undefined" Hi) as Hg.
  destruct (get (nth i (Object_keys (fields (this f))) "undefined")
                (fields (this f))) as [fc|]; [|contradiction].
  rewrite Forall_forall in Hall. pose proof (Hall v (nth_error_In _ _ Hv)) as Hs.
  unfold stringable in Hs. destruct (is_nullish v); [reflexivity|].
  simpl in *. apply andb_prop in Hs. destruct Hs as [H1 H2].
  destruct (quoted fc); assumption.
Qed.

Lemma row_fits_grown (f g : File) (row : list value) :
  grown_from f g -> row_fits f row -> row_fits g row.
Proof.
  intros [added [E _]] [Hlen Hall]. split; [|exact Hall].
  rewrite E. simpl. rewrite length_app. lia.
Qed.

Lemma clean_flush (env : Env) (f : File) :
  clean f ->
  fs_write_throws (_getPath env f) (encoding (this f)) = false ->
  result (flush env f) = inr tt
  /\ clean (final (flush env f))
  /\ grown_from f (final (flush env f)).
Proof.
  intros [Ho Hrows] Hw.
  assert (Hok : exists text, _generateCsvData f = inr text).
  { apply _generateCsvData_succeeds_iff. intros row Hin.
    apply row_fits_renders. rewrite Forall_forall in Hrows. exact (Hrows row Hin). }
  destruct Hok as [t Ht].
  split; [|split; [|apply grown_from_private; apply flush_keeps_this]].
  - split_flush env f; rewrite Hrun; simpl; congruence.
  - split_flush env f; rewrite Hrun; simpl; try congruence.
    + split; assumption.
    + split; [exact Ho | constructor].
Qed.

Lemma get_Forall {A : Type} (P : A -> Prop) (k : string) (v : A)
  (l : list (string * A)) :
  Forall (fun kv => P (snd kv)) l -> get k l = Some v -> P v.
Proof.
  induction 1 as [|[k0 v0] l Hv _ IH]; simpl; intro H; [discriminate|].
  destruct (String.eqb k0 k); [injection H as <-; exact Hv | exact (IH H)].
Qed.

(** The members of [Object.prototype] have a [toString] and a text. *)
Lemma inherited_stringable (name : string) (v : value) :
  inherited name = Some v -> stringable v = true.
Proof.
  apply (get_Forall (fun v => stringable v = true)).
  unfold Object_prototype. repeat constructor.
Qed.

Lemma get_value_stringable (props : list (string * value)) (name : string) :
  Forall (fun kv => stringable (snd kv) = true) props ->
  stringable (get_value name props) = true.
Proof.
  intro H. unfold get_value. destruct (get name props) as [v|] eqn:Eg.
  - exact (get_Forall (fun v => stringable v = true) _ _ _ H Eg).
  - destruct (inherited name) as [v|] eqn:Ei; [|reflexivity].
    exact (inherited_stringable name v Ei).
Qed.

Lemma clean_pushed (props : list (string * value)) (f : File) :
  clean f ->
  Forall (fun kv => stringable (snd kv) = true) props ->
  clean (pushed (DObject props) f).
Proof.
  intros [Ho Hrows] Hprops.
  pose proof (pushed_grown (DObject props) f) as Hg.
  split; [exact Ho|].
  change (buffer (priv (pushed (DObject props) f)))
    with (buffer (priv f)
          ++ [map (fun name => get_value name props)
                  (Object_keys (fields (this (pushed (DObject props) f))))])%list.
  apply Forall_app. split.
  - eapply Forall_impl; [|exact Hrows]. intros row. apply row_fits_grown. exact Hg.
  - constructor; [|constructor]. split.
    + rewrite length_map, Object_keys_length. lia.
    + apply Forall_map. apply Forall_forall. intros name _.
      apply get_value_stringable. exact Hprops.
Qed.

Lemma clean_add (env : Env) (props : list (string * value)) (f : File) :
  clean f ->
  Forall (fun kv => stringable (snd kv) = true) props ->
  fs_write_throws (_getPath env f) (encoding (this f)) = false ->
  result (add env (DObject props) f) = inr tt
  /\ clean (final (add env (DObject props) f))
  /\ grown_from f (final (add env (DObject props) f)).
Proof.
  intros Hc Hprops Hw. pose proof (clean_pushed props f Hc Hprops) as Hp.
  pose proof (pushed_grown (DObject props) f) as Hg.
  rewrite (add_row env (DObject props) f (proj1 Hc) eq_refl).
  destruct (flush_if_due_cases env (pushed (DObject props) f)) as [E | E];
    rewrite E.
  - destruct (clean_flush env _ Hp) as [H1 [H2 H3]].
    + rewrite (grown_from_refusal env _ _ Hg). exact Hw.
    + split; [exact H1|]. split; [exact H2|].
      exact (grown_from_trans _ _ _ Hg H3).
  - split; [reflexivity|]. split; [exact Hp | exact Hg].
Qed.

(** X10. Rows given as objects whose values can be written in any column
    (each is [undefined] or [null], or has a [toString] and a conversion by
    [join]) never make the writer throw where the file system does not
    refuse the write call: on an open object whose buffered rows fit the
    schema and hold such values, every such [add] returns, and so does a
    [complete] after them, which closes the object with an empty buffer. *)
Theorem object_rows_never_throw (f : File)
  (calls : list (Env * list (string * value))) :
  clean f ->
  Forall (fun c => Forall (fun kv => stringable (snd kv) = true) (snd c)) calls ->
  Forall (fun c => fs_write_throws (_getPath (fst c) f) (encoding (this f))
                   = false) calls ->
  let o := add_all (map (fun c => (fst c, DObject (snd c))) calls) f in
  result o = inr tt
  /\ clean (final o)
  /\ (forall env,
        fs_write_throws (_getPath env f) (encoding (this f)) = false ->
        result (complete env (final o)) = inr tt
        /\ open (priv (final (complete env (final o)))) = false
        /\ buffer (priv (final (complete env (final o)))) = []).
Proof.
  intros Hc Hcalls Hfs. cbv zeta.
  assert (Hall : result (add_all (map (fun c => (fst c, DObject (snd c))) calls) f)
                 = inr tt
                 /\ clean (final (add_all
                                    (map (fun c => (fst c, DObject (snd c))) calls) f))
                 /\ grown_from f
                      (final (add_all
                                (map (fun c => (fst c, DObject (snd c))) calls) f))).
  { revert f Hc Hfs.
    induction Hcalls as [|[env props] rest Hp _ IH]; intros f Hc Hfs; simpl.
    - split; [reflexivity|]. split; [exact Hc | apply grown_from_refl].
    - simpl in Hp. inversion Hfs as [|c cs Hw Hws]; subst. simpl in Hw.
      destruct (clean_add env props f Hc Hp Hw) as [Hr [Hc' Hg]].
      unfold bind. rewrite Hr. simpl.
      destruct (IH _ Hc') as [H1 [H2 H3]].
      + eapply Forall_impl; [|exact Hws]. simpl. intros c Hcw.
        rewrite (grown_from_refusal (fst c) _ _ Hg). exact Hcw.
      + split; [exact H1|]. split; [exact H2|].
        exact (grown_from_trans _ _ _ Hg H3). }
  destruct Hall as [Hr [Hc' Hg]]. split; [exact Hr|]. split; [exact Hc'|].
  intros env Hw.
  set (g := final (add_all (map (fun c => (fst c, DObject (snd c))) calls) f)) in *.
  rewrite (complete_open env g (proj1 Hc')). cbv zeta.
  assert (Hc0 : clean (set_timerFlushInterval TimerNull g)) by exact Hc'.
  assert (Hw0 : fs_write_throws (_getPath env (set_timerFlushInterval TimerNull g))
                  (encoding (this (set_timerFlushInterval TimerNull g))) = false).
  { change (fs_write_throws (_getPath env g) (encoding (this g)) = false).
    rewrite (grown_from_refusal env _ _ Hg). exact Hw. }
  destruct (clean_flush env _ Hc0 Hw0) as [Hfl _].
  rewrite Hfl. simpl. split; [reflexivity|]. split; [reflexivity|].
  pose proof (proj1 Hc0) as Ho0.
  split_flush env (set_timerFlushInterval TimerNull g);
    rewrite Hrun in *; simpl in *;
    first [ congruence | discriminate Hfl | reflexivity ].
Qed.

Lemma pushed_buffer (data : jsdata) (f : File) :
  is_row data = true ->
  open (priv (pushed data f)) = open (priv f)
  /\ exists row, buffer (priv (pushed data f)) = (buffer (priv f) ++ [row])%list.
Proof.
  intro Hr. destruct data; try discriminate Hr; unfold pushed; simpl;
    (split; [reflexivity | eexists; reflexivity]).
Qed.

Lemma unwritable_cell (f : File) (i : nat) (v : value) :
  unwritable v = true -> cell_renders f i v = false.
Proof.
  unfold unwritable, cell_renders. intro H.
  apply andb_prop in H. destruct H as [H H3].
  apply andb_prop in H. destruct H as [H1 H2].
  apply negb_true_iff in H1, H2, H3. rewrite H1, H2, H3. simpl.
  destruct (get (nth i (Object_keys (fields (this f))) "undefined")
                (fields (this f))) as [fc|]; [|reflexivity].
  destruct (quoted fc); reflexivity.
Qed.

Lemma poisoned_flush (env : Env) (f : File) :
  poisoned f ->
  exists e, flush env f = {| final := f; trace := []; result := inl e |}.
Proof.
  intros [Ho [row [v [Hin [Hbad Hv]]]]].
  destruct (_generateCsvData f) as [e|text] eqn:Hd.
  - exists e. apply flush_throws; try assumption.
    intro Hb. rewrite Hb in Hin. exact Hin.
  - exfalso. destruct (In_nth_error _ _ Hbad) as [i Hi].
    assert (Hc : cell_renders f i v = true).
    { apply (proj1 (_generateCsvData_succeeds_iff f)) with (row := row);
        [exists text; exact Hd | exact Hin | exact Hi]. }
    rewrite (unwritable_cell f i v Hv) in Hc. discriminate Hc.
Qed.

Lemma poisoned_pushed (data : jsdata) (f : File) :
  is_row data = true -> poisoned f -> poisoned (pushed data f).
Proof.
  intros Hr [Ho [row [v [Hin Hbad]]]].
  destruct (pushed_buffer data f Hr) as [Eo [r Eb]].
  split; [congruence|]. exists row, v. split; [|exact Hbad].
  rewrite Eb. apply in_or_app. left. exact Hin.
Qed.

Lemma poisoned_call (c : call) (f : File) :
  poisoned f ->
  poisoned (final (perform_call c f))
  /\ Forall (fun e => is_ClearInterval e = true) (trace (perform_call c f)).
Proof.
  intro Hp. destruct c as [env data | env | env]; simpl.
  - destruct (add_cases env data f)
      as [[e [_ E]] | [[_ [Hr E]] | [_ [Hr E]]]]; rewrite E; simpl.
    + split; [exact Hp | constructor].
    + destruct (poisoned_flush env _ (poisoned_pushed data f Hr Hp)) as [e Ef].
      rewrite Ef. simpl. split; [exact (poisoned_pushed data f Hr Hp) | constructor].
    + split; [exact (poisoned_pushed data f Hr Hp) | constructor].
  - destruct (poisoned_flush env f Hp) as [e Ef]. rewrite Ef. simpl.
    split; [exact Hp | constructor].
  - rewrite (complete_open env f (proj1 Hp)). cbv zeta.
    assert (Hp0 : poisoned (set_timerFlushInterval TimerNull f)) by exact Hp.
    destruct (poisoned_flush env _ Hp0) as [e Ef]. rewrite Ef. simpl.
    split; [exact Hp0|]. rewrite app_nil_r.
    destruct (timer_is_null (timerFlushInterval (priv f)));
      repeat constructor.
Qed.

(** X11. Once the buffer holds a value that can be written in no column,
    one that has no [toString] and that [join] cannot convert, as
    [Object.create(null)], the object is stuck: whatever calls follow, it
    stays open with that row in its buffer, every flush throws, and nothing
    is handed out or written any more; the only effect left is the clearing
    of the timer by [complete]. *)
Theorem poisoned_forever (f : File) (cs : list call) :
  poisoned f ->
  poisoned (fst (run_calls cs f))
  /\ Forall (fun e => is_ClearInterval e = true) (snd (run_calls cs f))
  /\ (forall env, result (flush env (fst (run_calls cs f))) <> inr tt)
  /\ (forall env, result (complete env (fst (run_calls cs f))) <> inr tt).
Proof.
  intro Hp.
  assert (H : poisoned (fst (run_calls cs f))
              /\ Forall (fun e => is_ClearInterval e = true) (snd (run_calls cs f))).
  { revert f Hp. induction cs as [|c rest IH]; intros f Hp; simpl.
    - split; [exact Hp | constructor].
    - destruct (poisoned_call c f Hp) as [Hp' Ht].
      destruct (IH _ Hp') as [Hp'' Ht'].
      split; [exact Hp'' | apply Forall_app; auto]. }
  destruct H as [Hg Ht]. split; [exact Hg|]. split; [exact Ht|]. split.
  - intro env. destruct (poisoned_flush env _ Hg) as [e E]. rewrite E. discriminate.
  - intro env. rewrite (complete_open env _ (proj1 Hg)). cbv zeta.
    assert (Hp0 : poisoned (set_timerFlushInterval TimerNull (fst (run_calls cs f))))
      by exact Hg.
    destruct (poisoned_flush env _ Hp0) as [e E]. rewrite E. discriminate.
Qed.

(** ** Invariants of every run of calls *)

(** Every call is made of four steps: a row is pushed, the timer is cleared,
    the buffer is flushed, the object is closed.  What these steps keep,
    every run of calls keeps; [Q] is what they let the trace be. *)
Lemma run_calls_invariant (I : File -> Prop) (Q : list effect -> Prop) :
  Q [] ->
  (forall t1 t2, Q t1 -> Q t2 -> Q (t1 ++ t2)%list) ->
  (forall f data, I f -> is_row data = true -> I (pushed data f)) ->
  (forall f, I f -> I (set_timerFlushInterval TimerNull f)) ->
  (forall f, I f -> I (set_open false f)) ->
  (forall f env, I f -> I (final (flush env f)) /\ Q (trace (flush env f))) ->
  (forall f, I f -> timer_is_null (timerFlushInterval (priv f)) = false ->
     Q [ClearInterval (timerFlushInterval (priv f))]) ->
  forall cs f, I f -> I (fst (run_calls cs f)) /\ Q (snd (run_calls cs f)).
Proof.
  intros Qnil Qapp Ipush Itimer Iclose Iflush Qclear.
  assert (Hcall : forall c f, I f ->
            I (final (perform_call c f)) /\ Q (trace (perform_call c f))).
  { intros [env data | env | env] f Hf; simpl.
    - destruct (add_cases env data f)
        as [[e [_ E]] | [[_ [Hr E]] | [_ [Hr E]]]]; rewrite E; simpl; auto.
    - auto.
    - destruct (open (priv f)) eqn:Ho.
      + rewrite (complete_open env f Ho). cbv zeta.
        destruct (Iflush _ env (Itimer f Hf)) as [H1 H2].
        assert (Hc : Q (if timer_is_null (timerFlushInterval (priv f)) then []
                        else [ClearInterval (timerFlushInterval (priv f))]))
          by (destruct (timer_is_null (timerFlushInterval (priv f))) eqn:Et; auto).
        destruct (result (flush env (set_timerFlushInterval TimerNull f)));
          simpl; auto.
      + rewrite (complete_closed env f Ho). simpl. auto. }
  induction cs as [|c rest IH]; intros f Hf; simpl.
  - auto.
  - destruct (Hcall c f Hf) as [H1 H2]. destruct (IH _ H1) as [H3 H4]. auto.
Qed.

Lemma pushed_private (data : jsdata) (f : File) :
  is_row data = true ->
  lastPath (priv (pushed data f)) = lastPath (priv f)
  /\ timerFlushInterval (priv (pushed data f)) = timerFlushInterval (priv f)
  /\ open (priv (pushed data f)) = open (priv f).
Proof.
  intro Hr. destruct data; try discriminate Hr; unfold pushed; simpl; auto.
Qed.

(** X20. In every run of calls each write comes right after the ['data']
    event of the same path and the same text, and is made with the encoding
    the object was constructed with; nothing else is issued but the clearing
    of the timer: no timer is started, no ['error'] is emitted by a call. *)
Theorem run_calls_announced (cs : list call) (f : File) :
  announced (encoding (this f)) (snd (run_calls cs f)).
Proof.
  refine (proj2 (run_calls_invariant
                   (fun g => encoding (this g) = encoding (this f))
                   (announced (encoding (this f)))
                   _ _ _ _ _ _ _ cs f eq_refl)).
  - constructor.
  - intros t1 t2 H1 H2. induction H1; simpl; try constructor; auto.
  - intros g data Hg _.
    rewrite (proj1 (grown_from_options _ _ (pushed_grown data g))). exact Hg.
  - intros g Hg. exact Hg.
  - intros g Hg. exact Hg.
  - intros g env Hg. split.
    + rewrite flush_keeps_this. exact Hg.
    + split_flush env g; rewrite Hrun; simpl; try constructor;
        unfold dispatch; rewrite Hg;
        destruct (overwrites env g); repeat constructor.
  - intros g _ _. repeat constructor.
Qed.

(** X15. An object constructed with [overwrite] off never calls
    [fs.writeFile], whatever calls are made: every write appends. *)
Theorem run_calls_append_only (cs : list call) (f : File) :
  overwrite (this f) = false ->
  overwrite (this (fst (run_calls cs f))) = false
  /\ Forall (fun e => is_WriteFile e = false) (snd (run_calls cs f)).
Proof.
  intro Hov.
  refine (run_calls_invariant
            (fun g => overwrite (this g) = false)
            (Forall (fun e => is_WriteFile e = false))
            _ _ _ _ _ _ _ cs f Hov).
  - constructor.
  - intros t1 t2 H1 H2. apply Forall_app. auto.
  - intros g data Hg _.
    rewrite (proj1 (proj2 (grown_from_options _ _ (pushed_grown data g)))).
    exact Hg.
  - intros g Hg. exact Hg.
  - intros g Hg. exact Hg.
  - intros g env Hg. split.
    + rewrite flush_keeps_this. exact Hg.
    + split_flush env g; rewrite Hrun; simpl; try constructor;
        first [ reflexivity
              | constructor; [|constructor];
                unfold dispatch, overwrites; rewrite Hg; reflexivity ].
  - intros g _ _. repeat constructor.
Qed.

(** X14. With a path given as a string, once a flush has written to it the
    file is never overwritten again and no further header is written: in
    every later run of calls each write appends to that path, and a flush
    after it hands out the text of the rows alone, also when columns have
    been added since. *)
Theorem static_path_header_once (p : string) (cs : list call) (f : File) :
  path (this f) = PathString p ->
  lastPath (priv f) = Some p ->
  let g := fst (run_calls cs f) in
  lastPath (priv g) = Some p
  /\ Forall (fun e => is_WriteFile e = false) (snd (run_calls cs f))
  /\ (forall env data,
        open (priv g) = true -> buffer (priv g) <> [] ->
        _generateCsvData g = inr data ->
        trace (flush env g)
          = [Emit_data p data; AppendFile p data (encoding (this f))]).
Proof.
  intros Hpath Hlast.
  assert (Hstep : forall h env,
            path (this h) = PathString p /\ lastPath (priv h) = Some p ->
            overwrites env h = false /\ emits_header env h = false
            /\ _getPath env h = p).
  { intros h env [Hp Hl].
    unfold overwrites, emits_header, new_destination, _getPath.
    rewrite Hp, Hl. simpl. rewrite String.eqb_refl. simpl.
    rewrite !andb_false_r. auto. }
  assert (Hinv : (path (this (fst (run_calls cs f))) = PathString p
                  /\ lastPath (priv (fst (run_calls cs f))) = Some p)
                 /\ Forall (fun e => is_WriteFile e = false)
                           (snd (run_calls cs f))).
  { refine (run_calls_invariant
              (fun g => path (this g) = PathString p /\ lastPath (priv g) = Some p)
              (Forall (fun e => is_WriteFile e = false))
              _ _ _ _ _ _ _ cs f (conj Hpath Hlast)).
    - constructor.
    - intros t1 t2 H1 H2. apply Forall_app. auto.
    - intros g data [Hg1 Hg2] Hr. split.
      + rewrite (proj1 (proj2 (proj2 (proj2
                   (grown_from_options _ _ (pushed_grown data g)))))). exact Hg1.
      + rewrite (proj1 (pushed_private data g Hr)). exact Hg2.
    - intros g Hg. exact Hg.
    - intros g Hg. exact Hg.
    - intros g env Hg. destruct (Hstep g env Hg) as [Ho [_ Hgp]].
      split_flush env g; rewrite Hrun; simpl; auto;
        (split;
         [split; [exact (proj1 Hg)
                 | first [rewrite Hgp; reflexivity | exact (proj2 Hg)]]|]);
        unfold dispatch; rewrite Ho; repeat constructor.
    - intros g _ _. repeat constructor. }
  destruct Hinv as [[Hp Hl] Ht].
  - cbv zeta. split; [exact Hl|]. split; [exact Ht|].
    intros env data Ho Hb Hd.
    destruct (Hstep _ env (conj Hp Hl)) as [Hov [Hh Hgp]].
    rewrite (flush_renders env _ data Ho Hb Hd). simpl.
    unfold dispatch. rewrite Hov, Hh, Hgp.
    rewrite (proj1 (grown_from_options _ _ (run_calls_grown cs f))).
    reflexivity.
Qed.

Lemma flush_keeps_timer (env : Env) (f : File) :
  timerFlushInterval (priv (final (flush env f))) = timerFlushInterval (priv f)
  /\ Forall (fun e => is_ClearInterval e = false) (trace (flush env f)).
Proof.
  split_flush env f; rewrite Hrun; simpl; split; try reflexivity;
    try constructor;
    first [ reflexivity
          | constructor; [|constructor]; unfold dispatch;
            destruct (overwrites env f); reflexivity ].
Qed.

Lemma run_calls_timer_cleared (cs : list call) (f : File) :
  timerFlushInterval (priv f) = TimerNull ->
  Forall (fun e => is_ClearInterval e = false) (snd (run_calls cs f)).
Proof.
  intro Ht.
  refine (proj2 (run_calls_invariant
                   (fun g => timerFlushInterval (priv g) = TimerNull)
                   (Forall (fun e => is_ClearInterval e = false))
                   _ _ _ _ _ _ _ cs f Ht)).
  - constructor.
  - intros t1 t2 H1 H2. apply Forall_app. auto.
  - intros g data Hg Hr.
    rewrite (proj1 (proj2 (pushed_private data g Hr))). exact Hg.
  - intros g Hg. reflexivity.
  - intros g Hg. exact Hg.
  - intros g env Hg. destruct (flush_keeps_timer env g) as [E H].
    split; [congruence | exact H].
  - intros g Hg Hn. rewrite Hg in Hn. discriminate Hn.
Qed.

Lemma perform_call_clears (c : call) (f : File) :
  (Forall (fun e => is_ClearInterval e = false) (trace (perform_call c f))
   /\ timerFlushInterval (priv (final (perform_call c f)))
        = timerFlushInterval (priv f))
  \/ (exists rest,
        trace (perform_call c f)
          = ClearInterval (timerFlushInterval (priv f)) :: rest
        /\ Forall (fun e => is_ClearInterval e = false) rest
        /\ timerFlushInterval (priv f) <> TimerNull
        /\ timerFlushInterval (priv (final (perform_call c f))) = TimerNull).
Proof.
  destruct c as [env data | env | env]; simpl.
  - left. destruct (add_cases env data f)
      as [[e [_ E]] | [[_ [Hr E]] | [_ [Hr E]]]]; rewrite E; simpl.
    + split; [constructor | reflexivity].
    + destruct (flush_keeps_timer env (pushed data f)) as [Et Hf].
      split; [exact Hf|]. rewrite Et.
      exact (proj1 (proj2 (pushed_private data f Hr))).
    + split; [constructor|]. exact (proj1 (proj2 (pushed_private data f Hr))).
  - left. destruct (flush_keeps_timer env f). auto.
  - destruct (open (priv f)) eqn:Ho.
    + rewrite (complete_open env f Ho). cbv zeta.
      destruct (flush_keeps_timer env (set_timerFlushInterval TimerNull f))
        as [Et Hf]. simpl in Et.
      destruct (timerFlushInterval (priv f)) eqn:Etm; simpl.
      * right. exists (trace (flush env (set_timerFlushInterval TimerNull f))).
        destruct (result (flush env (set_timerFlushInterval TimerNull f)));
          simpl; repeat split; auto; discriminate.
      * right. exists (trace (flush env (set_timerFlushInterval TimerNull f))).
        destruct (result (flush env (set_timerFlushInterval TimerNull f)));
          simpl; repeat split; auto; discriminate.
      * left.
        destruct (result (flush env (set_timerFlushInterval TimerNull f)));
          simpl; auto.
    + left. rewrite (complete_closed env f Ho). simpl.
      split; [constructor | reflexivity].
Qed.

Lemma filter_none {A : Type} (p : A -> bool) (l : list A) :
  Forall (fun x => p x = false) l -> filter p l = [].
Proof.
  induction 1 as [|x l Hx _ IH]; simpl; [reflexivity|]. rewrite Hx. exact IH.
Qed.

(** X19. In every run of calls [clearInterval] is called at most once, by
    [complete], with what [_open] left in [timerFlushInterval]: the handle
    of the timer, or [undefined] when none was started.  A [complete] that
    is repeated, after one that threw or on the closed object, does not
    clear again. *)
Theorem clearInterval_at_most_once (cs : list call) (f : File) :
  (List.length (filter is_ClearInterval (snd (run_calls cs f))) <= 1)%nat
  /\ (forall t, In (ClearInterval t) (snd (run_calls cs f)) ->
        t = timerFlushInterval (priv f) /\ t <> TimerNull)
  /\ (timerFlushInterval (priv f) = TimerNull ->
      filter is_ClearInterval (snd (run_calls cs f)) = []).
Proof.
  split; [|split].
  - revert f. induction cs as [|c rest IH]; intro f; simpl; [lia|].
    rewrite filter_app, length_app.
    destruct (perform_call_clears c f) as [[Hn _] | [r [E [Hr [_ Ht]]]]].
    + rewrite (filter_none _ _ Hn). simpl. apply IH.
    + rewrite E. simpl. rewrite (filter_none _ _ Hr).
      rewrite (filter_none _ _ (run_calls_timer_cleared rest _ Ht)).
      simpl. lia.
  - revert f. induction cs as [|c rest IH]; intros f t Hin; simpl in Hin;
      [contradiction|].
    apply in_app_or in Hin.
    destruct (perform_call_clears c f) as [[Hn Et] | [r [E [Hr [Hnn Ht]]]]].
    + destruct Hin as [Hin | Hin].
      * rewrite Forall_forall in Hn. specialize (Hn _ Hin). discriminate Hn.
      * rewrite <- Et. exact (IH _ t Hin).
    + destruct Hin as [Hin | Hin].
      * rewrite E in Hin. destruct Hin as [Hin | Hin].
        -- injection Hin as <-. auto.
        -- rewrite Forall_forall in Hr. specialize (Hr _ Hin). discriminate Hr.
      * pose proof (run_calls_timer_cleared rest _ Ht) as Hnone.
        rewrite Forall_forall in Hnone. specialize (Hnone _ Hin).
        discriminate Hnone.
  - intro Ht. apply filter_none. exact (run_calls_timer_cleared cs f Ht).
Qed.

(** ** What [add] does about flushing *)

(** X12. With a row-count threshold, the buffer never holds more rows than
    the threshold after a call that returns: if it held no more before,
    then after an [add] that returns it holds no more, and after a [flush] or
    a [complete] that returns it is empty. *)
Theorem buffer_stays_within_flushLines (c : call) (f : File) :
  (0 < flushLines (this f))%Z ->
  (Z.of_nat (List.length (buffer (priv f))) <= flushLines (this f))%Z ->
  result (perform_call c f) = inr tt ->
  (Z.of_nat (List.length (buffer (priv (final (perform_call c f)))))
     <= flushLines (this (final (perform_call c f))))%Z
  /\ flushLines (this (final (perform_call c f))) = flushLines (this f)
  /\ (forall env, c = CallFlush env \/ c = CallComplete env ->
        buffer (priv (final (perform_call c f))) = []).
Proof.
  intros Hpos Hle Hres.
  assert (Hfl : flushLines (this (final (perform_call c f))) = flushLines (this f)).
  { exact (proj1 (proj2 (proj2 (proj2 (proj2
             (grown_from_options _ _ (perform_call_grown c f))))))). }
  assert (Hflush : forall env g, result (flush env g) = inr tt ->
            buffer (priv (final (flush env g))) = []).
  { intros env g H. split_flush env g; rewrite Hrun in *; simpl in *;
      first [ discriminate H | assumption | reflexivity ]. }
  rewrite Hfl. split; [|split; [reflexivity|]].
  - destruct c as [env data | env | env]; simpl in *.
    + destruct (open (priv f)) eqn:Ho;
        [|rewrite (add_closed env data f Ho) in Hres; discriminate Hres].
      destruct (is_row data) eqn:Hr.
      * rewrite (add_row env data f Ho Hr) in *.
        destruct (pushed_keeps data f Hr) as [_ [_ [Kl [_ Kb]]]].
        destruct (Z.le_gt_cases
                    (Z.of_nat (List.length (buffer (priv (pushed data f)))))
                    (flushLines (this (pushed data f)))) as [Hin | Hout].
        -- rewrite flush_if_due_waits by (rewrite ?Kl; lia). simpl. lia.
        -- rewrite flush_if_due_fires in * by (rewrite ?Kl; lia).
           rewrite (Hflush _ _ Hres). simpl. lia.
      * destruct (add_cases env data f)
          as [[e [_ E]] | [[_ [Hr' _]] | [_ [Hr' _]]]]; try congruence.
        rewrite E in Hres. discriminate Hres.
    + rewrite (Hflush _ _ Hres). simpl. lia.
    + destruct (open (priv f)) eqn:Ho;
        [|rewrite (complete_closed env f Ho) in Hres; discriminate Hres].
      rewrite (complete_open env f Ho) in *. cbv zeta in *.
      destruct (result (flush env (set_timerFlushInterval TimerNull f)))
        as [e|[]] eqn:Er; simpl in *; [discriminate Hres|].
      rewrite (Hflush _ _ Er). simpl. lia.
  - intros env [-> | ->]; simpl in *.
    + exact (Hflush _ _ Hres).
    + destruct (open (priv f)) eqn:Ho;
        [|rewrite (complete_closed env f Ho) in Hres; discriminate Hres].
      rewrite (complete_open env f Ho) in *. cbv zeta in *.
      destruct (result (flush env (set_timerFlushInterval TimerNull f)))
        as [e|[]] eqn:Er; simpl in *; [discriminate Hres|].
      exact (Hflush _ _ Er).
Qed.

(** X13. [add] flushes nothing by itself when only a time interval is
    configured, or when [flushLines] is negative: the row is pushed, nothing
    is handed out, and the rows wait for the timer, a [flush] or a
    [complete]. *)
Theorem add_only_buffers (env : Env) (data : jsdata) (f : File) :
  open (priv f) = true ->
  is_row data = true ->
  (flushLines (this f) < 0)%Z
  \/ (flushLines (this f) = 0%Z /\ flushInterval (this f) <> 0%Z) ->
  add env data f = {| final := pushed data f; trace := []; result := inr tt |}
  /\ List.length (buffer (priv (pushed data f)))
     = S (List.length (buffer (priv f))).
Proof.
  intros Ho Hr Hcfg.
  destruct (pushed_keeps data f Hr) as [_ [_ [Kl [Ki Kb]]]].
  split; [|exact Kb].
  rewrite (add_row env data f Ho Hr).
  unfold flush_if_due, bind, read. simpl. rewrite Kl, Ki.
  destruct Hcfg as [Hneg | [Hz Hi]].
  - replace (0 <? flushLines (this f))%Z with false
      by (symmetry; apply Z.ltb_ge; lia).
    replace (flushLines (this f) =? 0)%Z with false
      by (symmetry; apply Z.eqb_neq; lia).
    reflexivity.
  - rewrite Hz. simpl.
    replace (flushInterval (this f) =? 0)%Z with false
      by (symmetry; apply Z.eqb_neq; exact Hi).
    reflexivity.
Qed.

(** X16. An argument [add] does not take as a row leaves no mark: the object
    is as it was and nothing is issued.  The call throws ['file_not_open'] on
    a closed object, and on an open one a [TypeError] for [null] and
    ['invalid_data'] for everything else that is neither an array nor an
    object. *)
Theorem add_rejects_whole (env : Env) (data : jsdata) (f : File) :
  is_row data = false ->
  add env data f =
    {| final := f; trace := [];
       result := inl (if open (priv f)
                      then if jstype_eqb (typeof data) TyObject
                           then TypeError else invalid_data
                      else file_not_open) |}.
Proof.
  intro Hr. destruct (open (priv f)) eqn:Ho.
  - destruct data; try discriminate Hr; simpl;
      first [ apply add_null; exact Ho
            | apply add_not_object; [exact Ho | discriminate] ].
  - apply add_closed. exact Ho.
Qed.

(** ** The shape of the lines *)

Lemma map_from_nullish (f : File) (row : list value) :
  Forall (fun v => is_nullish v = true) row ->
  forall index,
    map_from (render_cell f) index row
      = inr (repeat (VString (nullValue (this f))) (List.length row)).
Proof.
  induction 1 as [|v rest Hv _ IH]; intro index; simpl; [reflexivity|].
  rewrite IH. destruct v; try discriminate Hv; reflexivity.
Qed.

Lemma map_from_join_strings (l : list string) :
  forall index,
    map_from (fun v (_ : nat) => join_element v) index (map VString l) = inr l.
Proof.
  induction l as [|s rest IH]; intro index; simpl; [reflexivity|].
  rewrite IH. reflexivity.
Qed.

(** X17. A row that holds only [undefined] and [null], the empty array
    included, always renders, whatever the schema: its line is [nullValue]
    once for every position of the row or column of the schema, whichever
    are more, never quoted. *)
Theorem render_line_nullish (f : File) (row : list value) :
  Forall (fun v => is_nullish v = true) row ->
  render_line f row =
    inr (join_strings (delimeter (this f))
           (repeat (nullValue (this f))
                   (Nat.max (List.length row) (List.length (fields (this f)))))
         ++ eol (this f)).
Proof.
  intro Hn. unfold render_line, Array_join.
  rewrite (map_from_nullish f row Hn 0). simpl.
  rewrite repeat_length, <- repeat_app.
  rewrite Object_keys_length.
  replace (List.length row + (List.length (fields (this f)) - List.length row))%nat
    with (Nat.max (List.length row) (List.length (fields (this f)))) by lia.
  assert (Hrep : forall n s, repeat (VString s) n = map VString (repeat s n)).
  { intros n s. induction n as [|n IH]; simpl; [reflexivity|]. rewrite IH.
    reflexivity. }
  rewrite Hrep, map_from_join_strings. reflexivity.
Qed.

Lemma Forall2_nth_error {A B : Type} (R : A -> B -> Prop)
  (l : list A) (l' : list B) :
  Forall2 R l l' ->
  forall i x, nth_error l i = Some x ->
  exists y, nth_error l' i = Some y /\ R x y.
Proof.
  induction 1 as [|x0 y0 l l' H0 _ IH]; intros i x Hx.
  - destruct i; discriminate Hx.
  - destruct i as [|i]; simpl in *.
    + injection Hx as <-. exists y0. auto.
    + exact (IH i x Hx).
Qed.

(** The cells of a rendered line, one by one: the cell of every value of
    the row, then [nullValue] up to the number of columns. *)
Lemma render_line_exact (f : File) (row : list value) (line : string) :
  render_line f row = inr line ->
  exists cells,
    List.length cells = List.length row
    /\ (forall i v, nth_error row i = Some v ->
          exists c, nth_error cells i = Some c /\ cell_text f i v = inr c)
    /\ line =
         join_strings (delimeter (this f))
           (cells ++ repeat (nullValue (this f))
                       (List.length (fields (this f)) - List.length row))
         ++ eol (this f).
Proof.
  unfold render_line, Array_join. intro H.
  destruct (map_from (render_cell f) 0 row) as [e|line0] eqn:E0; simpl in H;
    [discriminate|].
  match type of H with
  | sum_bind (sum_bind (map_from ?fn 0 ?l) _) _ = _ =>
      destruct (map_from fn 0 l) as [e|texts] eqn:E1; simpl in H; [discriminate|]
  end.
  injection H as <-.
  pose proof (map_from_length _ _ _ _ E0) as Hlen.
  apply (map_from_Forall2 join_element) in E1.
  apply Forall2_app_inv_l in E1.
  destruct E1 as [cells [pad [Hcells [Hpad ->]]]].
  exists cells. split; [|split].
  - rewrite <- Hlen. symmetry. exact (Forall2_length Hcells).
  - intros i v Hv.
    destruct (map_from_nth_error _ _ _ _ E0 i v Hv) as [y [Hy Hn]]. simpl in Hy.
    destruct (Forall2_nth_error _ _ _ Hcells i y Hn) as [c [Hc Hj]].
    exists c. split; [exact Hc|]. unfold cell_text. rewrite Hy. exact Hj.
  - rewrite Object_keys_length, Hlen in Hpad.
    assert (Hnull : forall y,
               join_element (VString (nullValue (this f))) = inr y ->
               y = nullValue (this f))
      by (intros y Hy; simpl in Hy; congruence).
    rewrite (Forall2_repeat_l _ _ _ Hnull _ _ Hpad). reflexivity.
Qed.

(** X21. When no buffered row is longer than the schema, as no row given as
    an object is, the text of a flush is rectangular: it is one line per
    buffered row, and every line is exactly one cell per column, joined by
    the separator and followed by [eol]: the cell of each value of the row
    at its position, then [nullValue] for every column the row lacks.  The
    header line has one cell per column too, the quoted name. *)
Theorem flush_text_rectangular (f : File) (text : string) :
  Forall (fun row => (List.length row <= List.length (fields (this f)))%nat)
         (buffer (priv f)) ->
  _generateCsvData f = inr text ->
  let n := List.length (fields (this f)) in
  (exists lines,
     text = join_strings EmptyString lines
     /\ Forall2
          (fun row line =>
             exists cells,
               List.length cells = n
               /\ line = join_strings (delimeter (this f)) cells ++ eol (this f)
               /\ (forall i v, nth_error row i = Some v ->
                     exists c, nth_error cells i = Some c
                               /\ cell_text f i v = inr c)
               /\ (forall i, (List.length row <= i < n)%nat ->
                     nth_error cells i = Some (nullValue (this f))))
          (buffer (priv f)) lines)
  /\ (exists names,
        List.length names = n
        /\ Forall2 (fun name cell => _enquote f (VString name) = inr cell)
                   (Object_keys (fields (this f))) names
        /\ _generateCsvHeaders f
             = inr (join_strings (delimeter (this f)) names ++ eol (this f))).
Proof.
  intros Hfit Hd n. split.
  - destruct (_generateCsvData_lines f text Hd) as [lines [H2 Ht]].
    exists lines. split; [exact Ht|].
    clear Ht Hd. induction H2 as [|row line rows lines Hr _ IH].
    + constructor.
    + inversion Hfit as [|r rs Hlen Hrest]; subst. constructor; [|exact (IH Hrest)].
      destruct (render_line_exact f row line Hr) as [cells [Hc [Hcell Hl]]].
      exists (cells ++ repeat (nullValue (this f)) (n - List.length row))%list.
      split; [rewrite length_app, repeat_length, Hc; subst n; lia|].
      split; [exact Hl|]. split.
      * intros i v Hv. destruct (Hcell i v Hv) as [c [Hn Ht]].
        exists c. split; [|exact Ht].
        rewrite nth_error_app1; [exact Hn|].
        apply nth_error_Some. rewrite Hn. discriminate.
      * intros i [Hlo Hhi]. rewrite nth_error_app2 by (rewrite Hc; exact Hlo).
        rewrite nth_error_repeat; [reflexivity|]. rewrite Hc. lia.
  - exists (map (enquote_text f) (Object_keys (fields (this f)))).
    split; [rewrite length_map, Object_keys_length; reflexivity|].
    split; [|apply _generateCsvHeaders_total].
    induction (Object_keys (fields (this f))) as [|k ks IH]; simpl;
      constructor; [reflexivity | exact IH].
Qed.

(** ** The example script *)

(** X18. [examples/3-1-usage-minimal.js], on any system: no timer is started;
    each of the three [add] calls flushes its row at once; only the first
    text carries a header, of the two columns known then, and overwrites
    [celebrities.csv]; the other two are appended, with a third cell for
    [Birthyear], quoted for the number and [NULL] for the row without it;
    [complete] then clears the timer that was never started and closes the
    object. *)
Theorem usage_minimal_run (os_EOL : string) (env1 env2 env3 env4 : Env) :
  let q s := double_quote ++ s ++ double_quote in
  let text1 :=
    q "Name" ++ "," ++ q "Expertise" ++ os_EOL
    ++ q "Albert Einstein" ++ "," ++ q "Relativity" ++ os_EOL in
  let text2 :=
    q "Galileo Galilei" ++ "," ++ q "Gravity" ++ "," ++ q "1564" ++ os_EOL in
  let text3 :=
    q "Shen Kuo" ++ "," ++ q "Astronomy" ++ "," ++ "NULL" ++ os_EOL in
  exists o,
    usage_minimal os_EOL env1 env2 env3 env4 = inr ([], o)
    /\ result o = inr tt
    /\ trace o
       = [Emit_data "celebrities.csv" text1;
          WriteFile "celebrities.csv" text1 "utf8";
          Emit_data "celebrities.csv" text2;
          AppendFile "celebrities.csv" text2 "utf8";
          Emit_data "celebrities.csv" text3;
          AppendFile "celebrities.csv" text3 "utf8";
          ClearInterval TimerUndefined]
    /\ open (priv (final o)) = false
    /\ buffer (priv (final o)) = []
    /\ Object_keys (fields (this (final o))) = ["Name"; "Expertise"; "Birthyear"].
Proof.
  cbv zeta. eexists. split; [reflexivity|]. repeat split.
Qed.

(** ** Flushing twice, and inference in closed form *)

(** X22. A flush that returned leaves nothing to flush: whatever became of
    its write, reported by the callback or not, the next flush without an
    [add] in between hands out nothing and writes nothing.  The rows of a
    write that failed are reported once, with their path and text, and are
    not retried. *)
Theorem flush_is_not_retried (env env' : Env) (f : File)
  (err : option string) (p csv : string) :
  result (flush env f) = inr tt ->
  let g := final (write_callback err p csv (final (flush env f))) in
  g = final (flush env f)
  /\ buffer (priv g) = []
  /\ flush env' g = {| final := g; trace := []; result := inr tt |}
  /\ trace (write_callback err p csv (final (flush env f)))
     = match err with
       | Some e => [Emit_error e p csv]
       | None => []
       end.
Proof.
  intros Hres g.
  assert (Eg : g = final (flush env f)) by (subst g; destruct err; reflexivity).
  assert (Hb : buffer (priv (final (flush env f))) = []
               /\ open (priv (final (flush env f))) = true).
  { split_flush env f; rewrite Hrun in *; simpl in *;
      first [ discriminate Hres | auto ]. }
  split; [exact Eg|]. rewrite Eg. split; [exact (proj1 Hb)|].
  split; [apply flush_empty; tauto|].
  destruct err; reflexivity.
Qed.

Lemma filter_ext_in_names (fs : list (string * field)) (name : string)
  (c : field) (rest : list string) :
  ~ In name rest ->
  filter (fun k => negb (is_defined k (fs ++ [(name, c)]))) rest
  = filter (fun k => negb (is_defined k fs)) rest.
Proof.
  intro Hnot. apply filter_ext_in. intros k Hk.
  assert (Hne : name <> k) by (intro E; subst; contradiction).
  unfold is_defined. rewrite (get_app_other k name c fs Hne). reflexivity.
Qed.

(** X23. Inference in closed form, for keys that are distinct: the fields
    afterwards are the fields before followed by the keys under which the
    schema had nothing, own or inherited, in the order the keys are given,
    each quoted.  So a row whose keys are all defined in the schema leaves
    it as it is; and on an empty schema, when no key is the name of a member
    of [Object.prototype], the fields are the keys of the row, which are the
    columns in that order when none of them is an array index. *)
Theorem _autodetectFields_closed_form (names : list string)
  (fs : list (string * field)) :
  NoDup names ->
  _autodetectFields_names names fs
  = (fs ++ map (fun k => (k, {| quoted := true |}))
               (filter (fun k => negb (is_defined k fs)) names))%list
  /\ ((forall k, In k names -> is_defined k fs = true) ->
      _autodetectFields_names names fs = fs)
  /\ (fs = [] ->
      Forall (fun k => inherited k = None) names ->
      _autodetectFields_names names fs
      = map (fun k => (k, {| quoted := true |})) names
      /\ (Forall (fun k => is_array_index k = false) names ->
          Object_keys (_autodetectFields_names names fs) = names)).
Proof.
  intro Hnd.
  assert (Hform : forall fs0,
            _autodetectFields_names names fs0
            = (fs0 ++ map (fun k => (k, {| quoted := true |}))
                        (filter (fun k => negb (is_defined k fs0)) names))%list).
  { induction Hnd as [|name rest Hnot Hnd IH]; intro fs0; simpl.
    - rewrite app_nil_r. reflexivity.
    - destruct (is_defined name fs0) eqn:Ed; simpl.
      + apply IH.
      + rewrite IH, filter_ext_in_names by exact Hnot.
        rewrite <- app_assoc. reflexivity. }
  split; [apply Hform|]. split.
  - intro Hknown. rewrite Hform.
    replace (filter (fun k => negb (is_defined k fs)) names)
      with (@nil string); [simpl; apply app_nil_r|].
    symmetry. apply filter_none. apply Forall_forall. intros k Hk.
    rewrite (Hknown k Hk). reflexivity.
  - intros -> Hplain.
    assert (E : _autodetectFields_names names []
                = map (fun k => (k, {| quoted := true |})) names).
    { rewrite Hform. simpl. f_equal. apply filter_all.
      eapply Forall_impl; [|exact Hplain]. simpl. intros k Hk.
      unfold is_defined. simpl. rewrite Hk. reflexivity. }
    split; [exact E|]. intro Hidx. rewrite E, Object_keys_names.
    + rewrite map_map. simpl. apply map_id.
    + apply Forall_map. exact Hidx.
Qed.

(** ** The further theorems at concrete objects *)

Lemma run_calls_schema_witness :
  let named := fst (run_calls [CallAdd an_env (DObject [("b", VString "2")])]
                              file_one_row) in
  let indexed := fst (run_calls [CallAdd an_env (DObject [("0", VString "z")])]
                                file_one_row) in
  Object_keys (fields (this file_one_row)) = ["a"]
  /\ Object_keys (fields (this named)) = ["a"; "b"]
  /\ fields (this indexed)
     = [("a", {| quoted := true |}); ("0", {| quoted := true |})]
  /\ Object_keys (fields (this indexed)) = ["0"; "a"].
Proof.
  cbv zeta.
  destruct (run_calls_schema [CallAdd an_env (DObject [("b", VString "2")])]
              file_one_row) as [added [_ [Ef [_ [_ [_ Hpos]]]]]].
  simpl in Ef. injection Ef as <-.
  split; [reflexivity|]. split; [|split; reflexivity].
  refine (proj1 (Hpos _)). repeat constructor.
Defined.

Lemma pushed_object_lookup_witness :
  let props := [("b", VString "2"); ("constructor", VString "c")] in
  let g := pushed (DObject props) file_one_row in
  Object_keys (fields (this g)) = ["a"; "b"]
  /\ buffer (priv g) = [[VString "x"]; [VUndefined; VString "2"]]
  /\ (exists i,
        nth_error (Object_keys (fields (this g))) i = Some "b"
        /\ nth_error [VUndefined; VString "2"] i = Some (VString "2"))
  /\ ~ In "constructor" (Object_keys (fields (this g))).
Proof.
  cbv zeta.
  destruct (pushed_object_lookup file_one_row
              [("b", VString "2"); ("constructor", VString "c")])
    as [_ [_ [Hkey [Hskip _]]]].
  split; [reflexivity|]. split; [reflexivity|]. split.
  - destruct (Hkey "b" (VString "2") eq_refl (or_introl eq_refl)) as [i [H1 H2]].
    exists i. split; [exact H1 | exact H2].
  - refine (proj2 (Hskip "constructor" _ eq_refl)). discriminate.
Defined.

Lemma flush_returns_iff_witness :
  open (priv file_one_row) = true
  /\ result (flush an_env file_one_row) = inr tt
  /\ cell_renders file_one_row 0 (VString "x") = true
  /\ result (flush an_env file_excess) <> inr tt
  /\ result (flush an_env file_bad_encoding) <> inr tt
  /\ result (flush an_env (file_columns_a_b valueOf_only a_symbol)) = inr tt
  /\ result (flush an_env (file_columns_a_b a_symbol (VString "x"))) <> inr tt
  /\ result (flush an_env (file_columns_a_b (VString "x") valueOf_only))
     <> inr tt.
Proof.
  split; [reflexivity|]. split; [reflexivity|]. split; [|split; [|split]].
  - exact (proj1 (proj1 (flush_returns_iff an_env file_one_row eq_refl) eq_refl)
             [VString "x"] (or_introl eq_refl) 0%nat (VString "x") eq_refl).
  - intro H.
    pose proof (proj1 (proj1 (flush_returns_iff an_env file_excess eq_refl) H)
                  [VString "x"] (or_introl eq_refl) 0%nat (VString "x") eq_refl)
      as Hc.
    discriminate Hc.
  - intro H.
    destruct (proj2 (proj1 (flush_returns_iff an_env file_bad_encoding eq_refl) H))
      as [Hb | Hw]; [discriminate Hb | discriminate Hw].
  - split; [|split].
    + apply (proj2 (flush_returns_iff an_env
                      (file_columns_a_b valueOf_only a_symbol) eq_refl)).
      split; [|right; reflexivity].
      intros row [<- | []] [|[|[|i]]] v Hv; simpl in Hv;
        first [ discriminate Hv | injection Hv as <-; reflexivity ].
    + intro H.
      pose proof (proj1 (proj1 (flush_returns_iff an_env
                                  (file_columns_a_b a_symbol (VString "x"))
                                  eq_refl) H)
                    [a_symbol; VString "x"] (or_introl eq_refl) 0%nat a_symbol
                    eq_refl) as Hc.
      discriminate Hc.
    + intro H.
      pose proof (proj1 (proj1 (flush_returns_iff an_env
                                  (file_columns_a_b (VString "x") valueOf_only)
                                  eq_refl) H)
                    [VString "x"; valueOf_only] (or_introl eq_refl) 1%nat
                    valueOf_only eq_refl) as Hc.
      discriminate Hc.
Defined.

Lemma object_rows_never_throw_witness :
  let f0 := fresh (public_with LF 1 double_quote backslash) in
  let calls := [(an_env, [("a", VString "x")]);
                (an_env, [("b", VOther (Some "7")); ("c", VNull)])] in
  let o := add_all (map (fun c => (fst c, DObject (snd c))) calls) f0 in
  clean f0
  /\ fs_write_throws (_getPath an_env f0) (encoding (this f0)) = false
  /\ result o = inr tt
  /\ result (complete an_env (final o)) = inr tt
  /\ open (priv (final (complete an_env (final o)))) = false.
Proof.
  cbv zeta.
  assert (Hc : clean (fresh (public_with LF 1 double_quote backslash)))
    by (split; [reflexivity | constructor]).
  destruct (object_rows_never_throw
              (fresh (public_with LF 1 double_quote backslash))
              [(an_env, [("a", VString "x")]);
               (an_env, [("b", VOther (Some "7")); ("c", VNull)])] Hc)
    as [Hr [_ Hcomp]].
  { repeat constructor. }
  { repeat constructor. }
  destruct (Hcomp an_env eq_refl) as [H1 [H2 _]].
  split; [exact Hc|]. split; [reflexivity|]. split; [exact Hr|].
  split; [exact H1 | exact H2].
Defined.

Lemma poisoned_forever_witness :
  let cs := [CallAdd an_env (DObject [("a", VString "x")]);
             CallFlush an_env; CallComplete an_env; CallComplete an_env] in
  poisoned file_unrenderable
  /\ buffer (priv file_unrenderable) = [[VOther None]]
  /\ unwritable (VOther None) = true
  /\ open (priv (fst (run_calls cs file_unrenderable))) = true
  /\ snd (run_calls cs file_unrenderable) = [ClearInterval TimerUndefined]
  /\ Forall (fun e => is_ClearInterval e = true)
            (snd (run_calls cs file_unrenderable)).
Proof.
  cbv zeta.
  assert (Hp : poisoned file_unrenderable).
  { split; [reflexivity|]. exists [VOther None], (VOther None).
    split; [left; reflexivity|]. split; [left; reflexivity | reflexivity]. }
  split; [exact Hp|]. split; [reflexivity|]. split; [reflexivity|].
  split; [reflexivity|]. split; [reflexivity|].
  exact (proj1 (proj2 (poisoned_forever file_unrenderable _ Hp))).
Defined.

Lemma buffer_stays_within_flushLines_witness :
  let c := CallAdd an_env (DObject [("a", VString "y")]) in
  flushLines (this file_one_row) = 5%Z
  /\ List.length (buffer (priv file_one_row)) = 1%nat
  /\ result (perform_call c file_one_row) = inr tt
  /\ (Z.of_nat (List.length (buffer (priv (final (perform_call c file_one_row)))))
        <= flushLines (this (final (perform_call c file_one_row))))%Z.
Proof.
  cbv zeta. split; [reflexivity|]. split; [reflexivity|]. split; [reflexivity|].
  refine (proj1 (buffer_stays_within_flushLines
                   (CallAdd an_env (DObject [("a", VString "y")]))
                   file_one_row _ _ eq_refl)).
  - reflexivity.
  - vm_compute. discriminate.
Defined.

Lemma add_only_buffers_witness :
  let f0 := fresh (public_with LF (-1) double_quote backslash) in
  open (priv f0) = true
  /\ (flushLines (this f0) < 0)%Z
  /\ add an_env (DArray []) f0
     = {| final := set_buffer [[]] f0; trace := []; result := inr tt |}.
Proof.
  cbv zeta. split; [reflexivity|]. split; [reflexivity|].
  exact (proj1 (add_only_buffers an_env (DArray [])
                  (fresh (public_with LF (-1) double_quote backslash))
                  eq_refl eq_refl (or_introl eq_refl))).
Defined.

Lemma static_path_header_once_witness :
  let f1 := final (flush an_env file_one_row) in
  let cs := [CallAdd an_env (DObject [("b", VString "2")]); CallFlush an_env] in
  let line := "NULL" ++ "," ++ double_quote ++ "2" ++ double_quote ++ LF in
  path (this f1) = PathString "out.csv"
  /\ lastPath (priv f1) = Some "out.csv"
  /\ snd (run_calls cs f1)
     = [Emit_data "out.csv" line; AppendFile "out.csv" line "utf8"]
  /\ Forall (fun e => is_WriteFile e = false) (snd (run_calls cs f1)).
Proof.
  cbv zeta. split; [reflexivity|]. split; [reflexivity|]. split; [reflexivity|].
  exact (proj1 (proj2 (static_path_header_once "out.csv"
                         [CallAdd an_env (DObject [("b", VString "2")]);
                          CallFlush an_env]
                         (final (flush an_env file_one_row)) eq_refl eq_refl))).
Defined.

Lemma run_calls_append_only_witness :
  let cs := [CallFlush an_env; CallAdd an_env (DArray [VNull]);
             CallComplete an_env] in
  overwrite (this file_append) = false
  /\ List.length (snd (run_calls cs file_append)) = 5%nat
  /\ Forall (fun e => is_WriteFile e = false) (snd (run_calls cs file_append)).
Proof.
  cbv zeta. split; [reflexivity|]. split; [reflexivity|].
  exact (proj2 (run_calls_append_only
                  [CallFlush an_env; CallAdd an_env (DArray [VNull]);
                   CallComplete an_env] file_append eq_refl)).
Defined.

Lemma add_rejects_whole_witness :
  is_row (DNumber 5) = false
  /\ add an_env (DNumber 5) file_one_row
     = {| final := file_one_row; trace := []; result := inl invalid_data |}
  /\ add an_env (DNumber 5) (final (complete an_env file_one_row))
     = {| final := final (complete an_env file_one_row); trace := [];
          result := inl file_not_open |}.
Proof.
  split; [reflexivity|]. split.
  - exact (add_rejects_whole an_env (DNumber 5) file_one_row eq_refl).
  - exact (add_rejects_whole an_env (DNumber 5)
             (final (complete an_env file_one_row)) eq_refl).
Defined.

Lemma render_line_nullish_witness :
  render_line file_two_columns [] = inr ("NULL" ++ "," ++ "NULL" ++ LF)
  /\ render_line file_two_columns [VNull; VUndefined; VNull]
     = inr ("NULL" ++ "," ++ "NULL" ++ "," ++ "NULL" ++ LF).
Proof.
  split.
  - exact (render_line_nullish file_two_columns [] (Forall_nil _)).
  - refine (render_line_nullish file_two_columns [VNull; VUndefined; VNull] _).
    repeat constructor.
Defined.

Lemma flush_text_rectangular_witness :
  let q s := double_quote ++ s ++ double_quote in
  let text := q "1" ++ "," ++ "NULL" ++ LF ++ "NULL" ++ "," ++ q "2" ++ LF in
  buffer (priv file_two_rows) = [[VString "1"]; [VUndefined; VString "2"]]
  /\ List.length (fields (this file_two_rows)) = 2%nat
  /\ _generateCsvData file_two_rows = inr text
  /\ exists lines,
       text = join_strings EmptyString lines
       /\ List.length lines = 2%nat.
Proof.
  cbv zeta. split; [reflexivity|]. split; [reflexivity|]. split; [reflexivity|].
  assert (Hfit : Forall (fun row => (List.length row
                                     <= List.length (fields (this file_two_rows)))%nat)
                        (buffer (priv file_two_rows))).
  { repeat constructor. }
  destruct (proj1 (flush_text_rectangular file_two_rows _ Hfit eq_refl))
    as [lines [H1 H2]].
  exists lines. split; [exact H1|].
  symmetry. exact (Forall2_length H2).
Defined.

Lemma flush_is_not_retried_witness :
  let f1 := final (flush an_env file_one_row) in
  result (flush an_env file_one_row) = inr tt
  /\ flush an_env f1 = {| final := f1; trace := []; result := inr tt |}
  /\ trace (write_callback (Some "EACCES") "out.csv" "text" f1)
     = [Emit_error "EACCES" "out.csv" "text"].
Proof.
  cbv zeta.
  destruct (flush_is_not_retried an_env an_env file_one_row (Some "EACCES")
              "out.csv" "text" eq_refl) as [_ [_ [H1 H2]]].
  split; [reflexivity|]. split; [exact H1 | exact H2].
Defined.

Lemma _autodetectFields_closed_form_witness :
  NoDup ["a"; "b"; "toString"; "c"]
  /\ _autodetectFields_names ["a"; "b"; "toString"; "c"]
       [("b", {| quoted := false |})]
     = [("b", {| quoted := false |}); ("a", {| quoted := true |});
        ("c", {| quoted := true |})].
Proof.
  assert (Hnd : NoDup ["a"; "b"; "toString"; "c"]).
  { repeat constructor; simpl; intuition discriminate. }
  split; [exact Hnd|].
  exact (proj1 (_autodetectFields_closed_form ["a"; "b"; "toString"; "c"]
                  [("b", {| quoted := false |})] Hnd)).
Defined.
